(** * finchdraw: a differential-drive drawing simulator

    Shallow embedding of [src/finchdraw.py] (class [Finch]) and the
    properties its specification states about it.

    Numbers.  The program computes with Python [float]s and calls
    [math.sin], [math.cos], [math.ceil] and [math.radians].  Here a float
    is a real number of the Standard Library and the four functions are
    [sin], [cos], [Zceil] and multiplication by [PI / 180]: the model is
    the program under exact arithmetic.  Rounding, infinities and NaN are
    outside it.  Python's [/] raises [ZeroDivisionError] on a zero divisor;
    that is kept ([truediv]).  A number the program formats with [:.3f] is
    given by the thousandths its text shows ([fmt3]).

    Effects.  A method is a function from the object's state to an outcome
    (a value or a raised exception) and the state it leaves behind: what a
    method did to [self] before it raised stays done, as in Python. *)

From Stdlib Require Import Reals Lra Lia List String ZArith Bool.
Import ListNotations.
Local Open Scope R_scope.

(** ** Exceptions and outcomes *)

Inductive exn : Type :=
| ZeroDivisionError
| ValueError
| OSError
| ImportError
| ImageError.

Inductive result (A : Type) : Type :=
| Ok (a : A)
| Raise (e : exn).

Arguments Ok {A} a.
Arguments Raise {A} e.

(** Python's [a / b] on floats. *)
Definition truediv (a b : R) : result R :=
  if Req_dec_T b 0 then Raise ZeroDivisionError else Ok (a / b).

(** [math.radians]. *)
Definition radians (deg : R) : R := deg * (PI / 180).

(** ** The object *)

Definition WHEELBASE_CM : R := 10.0.

Record Pose : Type := mkPose {
  x : R;   (* cm *)
  y : R;   (* cm *)
  th : R   (* radians, 0 = +X *)
}.

Definition point : Type := (R * R)%type.

(** The two output files, named by their role. *)
Inductive target : Type := SvgFile | PngFile.

(** One [open(..., "w")] of an output file and whether it succeeded. *)
Record write_attempt : Type := mkAttempt {
  wfile : target;
  wok : bool
}.

(** The attributes of a [Finch].  [_png_path] and [_svg_path] never change
    after construction and only name the files; they are left out.
    [written] is a history variable: the attempts this instance has made,
    in order, to open one of its output files for writing. *)
Record Finch : Type := mkFinch {
  _pose : Pose;
  _path : list point;
  _closed : bool;
  written : list write_attempt
}.

(** ** Methods as state transformers *)

Definition M (A : Type) : Type := Finch -> result A * Finch.

Definition ret {A : Type} (a : A) : M A := fun s => (Ok a, s).

Definition raise {A : Type} (e : exn) : M A := fun s => (Raise e, s).

Definition bind {A B : Type} (c : M A) (k : A -> M B) : M B :=
  fun s =>
    match c s with
    | (Ok a, s') => k a s'
    | (Raise e, s') => (Raise e, s')
    end.

(** [try: c  except Exception: pass] *)
Definition try_pass (c : M unit) : M unit :=
  fun s =>
    match c s with
    | (Ok a, s') => (Ok a, s')
    | (Raise _, s') => (Ok tt, s')
    end.

(** [try: v = c  except Exception: v = d] *)
Definition try_or {A : Type} (c : M A) (d : A) : M A :=
  fun s =>
    match c s with
    | (Ok a, s') => (Ok a, s')
    | (Raise _, s') => (Ok d, s')
    end.

Definition lift {A : Type} (r : result A) : M A := fun s => (r, s).

Definition get : M Finch := fun s => (Ok s, s).

Declare Scope py_scope.
Delimit Scope py_scope with py.
Notation "v <- c ;; k" := (bind c (fun v => k))
  (at level 61, c at next level, right associativity) : py_scope.
Notation "c ;; k" := (bind c (fun _ => k))
  (at level 61, right associativity) : py_scope.
Notation "' pat <- c ;; k" := (bind c (fun v => match v with pat => k end))
  (at level 61, pat pattern, c at next level, right associativity) : py_scope.
Local Open Scope py_scope.

(** [self._path.append(p)] *)
Definition path_append (p : point) : M unit :=
  fun s => (Ok tt, mkFinch (_pose s) (_path s ++ [p]) (_closed s) (written s)).

(** [self._pose = p] *)
Definition set_pose (p : Pose) : M unit :=
  fun s => (Ok tt, mkFinch p (_path s) (_closed s) (written s)).

(** [self._closed = b] *)
Definition set_closed (b : bool) : M unit :=
  fun s => (Ok tt, mkFinch (_pose s) (_path s) b (written s)).

(** [Finch()] *)
Definition __init__ : Finch :=
  mkFinch (mkPose 0.0 0.0 0.0) [(0.0, 0.0)] false [].

(** ** Differential-drive integration *)

(** The body of the [for] loop of [_advance]: the locals [(x, y, th)] are
    passed in and out, the append goes to [self]. *)
Definition advance_body (v omega h : R) (loc : Pose) : M Pose :=
  loc' <-
    (if Rlt_dec (Rabs omega) 1e-9 then
       ret (mkPose (x loc + v * h * cos (th loc))
                   (y loc + v * h * sin (th loc))
                   (th loc))
     else
       let th_new := th loc + omega * h in
       Rad <- (if Rgt_dec (Rabs v) 1e-12 then lift (truediv v omega) else ret 0.0) ;;
       ret (mkPose (x loc + Rad * (sin th_new - sin (th loc)))
                   (y loc - Rad * (cos th_new - cos (th loc)))
                   th_new)) ;;
  path_append (x loc', y loc') ;;
  ret loc'.

(** [for _ in range(steps): ...] *)
Fixpoint advance_loop (steps : nat) (v omega h : R) (loc : Pose) : M Pose :=
  match steps with
  | O => ret loc
  | S k =>
      loc' <- advance_body v omega h loc ;;
      advance_loop k v omega h loc'
  end.

Definition _advance (vl_cm_s vr_cm_s dt : R) : M unit :=
  if Rle_dec dt 0.0 then ret tt
  else
    let v := 0.5 * (vl_cm_s + vr_cm_s) in
    omega <- lift (truediv (vr_cm_s - vl_cm_s) WHEELBASE_CM) ;;
    self <- get ;;
    q <- lift (truediv dt 0.02) ;;
    let steps := Z.max 1 (Zceil q) in
    h <- lift (truediv dt (IZR steps)) ;;
    loc <- advance_loop (Z.to_nat steps) v omega h (_pose self) ;;
    set_pose loc.

(** ** Motor API *)

Definition wheels (left_cm_s right_cm_s : R) (duration : option R) : M unit :=
  match duration with
  | None => ret tt
  | Some d => _advance left_cm_s right_cm_s d
  end.

Definition setMove (direction : string) (distance_cm speed_cm_s : R) : M unit :=
  let distance_cm := distance_cm * (if String.eqb direction "F" then 1 else -1) in
  let speed_cm_s := Rabs speed_cm_s in
  if Rle_dec speed_cm_s 0.0 then ret tt
  else
    duration <- lift (truediv (Rabs distance_cm) speed_cm_s) ;;
    let vl := speed_cm_s * (if Rge_dec distance_cm 0 then 1 else -1) in
    let vr := vl in
    _advance vl vr duration.

Definition setTurn (direction : string) (degrees deg_per_s : R) : M unit :=
  let degrees := degrees * (if String.eqb direction "L" then 1 else -1) in
  let deg_per_s := Rabs deg_per_s in
  if Rle_dec deg_per_s 0.0 then ret tt
  else
    let omega_sign := if Rge_dec degrees 0.0 then 1.0 else -1.0 in
    let omega := radians deg_per_s * omega_sign in
    duration <- lift (truediv (Rabs (radians degrees)) (Rabs omega)) ;;
    let s := 0.5 * Rabs omega * WHEELBASE_CM in
    let vl := if Rge_dec degrees 0 then - s else s in
    let vr := if Rge_dec degrees 0 then s else - s in
    _advance vl vr duration.

(** ** Stubs kept for compatibility with the physical robot *)

Definition setLED (r g b : Z) : M unit := ret tt.
Definition setBeak (r g b : Z) : M unit := ret tt.
Definition setTail (position r g b : Z) : M unit := ret tt.
Definition playTone (freq_hz : Z) (duration_s : R) : M unit := ret tt.
Definition stopAll : M unit := ret tt.
Definition getDistance : M R := ret 0.0.
Definition getLine : M (Z * Z) := ret (0%Z, 0%Z).
Definition getLight : M (R * R) := ret (0.0, 0.0).
Definition getTemperature : M R := ret 20.0.
Definition getOrientation : M (R * R * R) := ret (0.0, 0.0, 0.0).
Definition getAcceleration : M (R * R * R) := ret (0.0, 0.0, 0.0).

(** ** Rendering *)

(** What the surroundings answer when the drawing is produced: whether
    each output file can be opened and written, whether the imaging
    library can be imported ([None]: the import fails) and, if so, whether
    drawing and encoding go through, and whether the notebook's display
    function can be imported. *)
Record Env : Type := mkEnv {
  svg_writable : bool;
  pil : option bool;
  png_writable : bool;
  ipython : bool
}.

(** [min(xs)] and [max(xs)] of a sequence: the first element, then every
    later one compared against the best so far. *)
Definition pymin (l : list R) : result R :=
  match l with
  | [] => Raise ValueError
  | a :: t => Ok (fold_left Rmin t a)
  end.

Definition pymax (l : list R) : result R :=
  match l with
  | [] => Raise ValueError
  | a :: t => Ok (fold_left Rmax t a)
  end.

(** The transposition of the path into [xs, ys] (a [zip] of its unpacked
    points): the unpacking into two names fails on an empty path. *)
Definition unzip_path (path : list point) : result (list R * list R) :=
  match path with
  | [] => Raise ValueError
  | _ :: _ => Ok (map fst path, map snd path)
  end.

Definition _bounds : M (R * R * R * R) :=
  self <- get ;;
  '(xs, ys) <- lift (unzip_path (_path self)) ;;
  minx <- lift (pymin xs) ;;
  maxx <- lift (pymax xs) ;;
  miny <- lift (pymin ys) ;;
  maxy <- lift (pymax ys) ;;
  let dx := Rmax 1e-6 (maxx - minx) in
  let dy := Rmax 1e-6 (maxy - miny) in
  let margin := 0.1 in
  ret (minx - dx * margin,
       miny - dy * margin,
       dx * (1 + 2 * margin),
       dy * (1 + 2 * margin)).

(** [int(r)]: truncation towards zero. *)
Definition pyint (r : R) : Z :=
  if Rle_dec 0 r then Zfloor r else Zceil r.

(** [view_h / view_w if view_w > 0 else 1.0] *)
Definition aspect (view_w view_h : R) : M R :=
  if Rgt_dec view_w 0 then lift (truediv view_h view_w) else ret 1.0.

(** Rounding to the nearest integer, a tie going to the even one. *)
Definition round_half_even (r : R) : Z :=
  let f := Zfloor r in
  if Rlt_dec (r - IZR f) 0.5 then f
  else if Rgt_dec (r - IZR f) 0.5 then (f + 1)%Z
  else if Z.even f then f else (f + 1)%Z.

(** A number formatted with [:.3f], given by the number of thousandths
    the text shows: [12.3456] prints as [12.346] and is 12346 here.  The
    sign a printed zero carries is not represented. *)
Definition fmt3 (r : R) : Z := round_half_even (r * 1000).

(** The vector document, by the numbers its text shows: the pixel size,
    and the viewBox (which the background rectangle repeats) and the
    points of the path in thousandths. *)
Record SvgDoc : Type := mkSvg {
  svg_width : Z;
  svg_height : Z;
  svg_viewBox : Z * Z * Z * Z;
  svg_polyline : list (Z * Z)
}.

Definition _to_svg_string : M SvgDoc :=
  '(view_min_x, view_min_y, view_w, view_h) <- _bounds ;;
  self <- get ;;
  let path_d := map (fun p => (fmt3 (fst p), fmt3 (- snd p))) (_path self) in
  let target_width := 400%Z in
  aspect_ratio <- aspect view_w view_h ;;
  let target_height :=
    Z.min 400 (Z.max 2 (pyint (IZR target_width * aspect_ratio))) in
  ret (mkSvg target_width target_height
             (fmt3 view_min_x, fmt3 (- view_min_y - view_h), fmt3 view_w, fmt3 view_h)
             path_d).

(** The raster image, by its size and the pixel each path point maps to. *)
Record Bitmap : Type := mkBitmap {
  bmp_W : Z;
  bmp_H : Z;
  bmp_points : list (Z * Z)
}.

Definition _png_bytes (env : Env) : M (option Bitmap) :=
  match pil env with
  | None => ret None
  | Some drawn =>
      '(view_min_x, view_min_y, view_w, view_h) <- _bounds ;;
      let target_width := 600%Z in
      aspect_ratio <- aspect view_w view_h ;;
      let W := target_width in
      let H := Z.max 2 (pyint (IZR target_width * aspect_ratio)) in
      scale_x <- (if Rgt_dec view_w 0 then lift (truediv (IZR W) view_w) else ret 1.0) ;;
      scale_y <- (if Rgt_dec view_h 0 then lift (truediv (IZR H) view_h) else ret 1.0) ;;
      let map_pt := fun p : point =>
        (pyint ((fst p - view_min_x) * scale_x),
         pyint ((- snd p - (- view_min_y - view_h)) * scale_y)) in
      self <- get ;;
      if drawn then ret (Some (mkBitmap W H (map map_pt (_path self))))
      else raise ImageError
  end.

(** [with open(file, mode) as f: f.write(...)] *)
Definition open_write (t : target) (ok : bool) : M unit :=
  fun s =>
    (if ok then Ok tt else Raise OSError,
     mkFinch (_pose s) (_path s) (_closed s) (written s ++ [mkAttempt t ok])).

Definition _write_svg_png (env : Env) : M unit :=
  svg <- _to_svg_string ;;
  open_write SvgFile (svg_writable env) ;;
  try_pass
    (png_bytes <- _png_bytes env ;;
     match png_bytes with
     | Some _ => open_write PngFile (png_writable env)
     | None => ret tt
     end).

Definition _maybe_render (env : Env) : M unit :=
  self <- get ;;
  if _closed self then ret tt
  else
    set_closed true ;;
    self <- get ;;
    if (List.length (_path self) <? 2)%nat then ret tt
    else try_pass (_write_svg_png env).

(** ** Lifecycle *)

Definition close (env : Env) : M unit := _maybe_render env.

(** The hook [atexit.register(self._maybe_render)] installs. *)
Definition atexit_hook (env : Env) : M unit := _maybe_render env.

(** ** Notebook display hooks *)

Definition _repr_png_ (env : Env) : M (option Bitmap) := _png_bytes env.

(** The bundle holds the SVG and, when there is one, the PNG. *)
Definition _repr_mimebundle_ (env : Env) : M (SvgDoc * option Bitmap) :=
  png <- try_or (_png_bytes env) None ;;
  svg <- _to_svg_string ;;
  ret (svg, png).

(** [display(self)] asks the object for its representations. *)
Definition show (env : Env) : M unit :=
  try_pass
    (if ipython env then
       _repr_mimebundle_ env ;;
       _repr_png_ env ;;
       ret tt
     else raise ImportError).

(** ** Programs: what a caller can do with a robot *)

Inductive Cmd : Type :=
| Wheels (left_cm_s right_cm_s : R) (duration : option R)
| SetMove (direction : string) (distance_cm speed_cm_s : R)
| SetTurn (direction : string) (degrees deg_per_s : R)
| SetLED (r g b : Z)
| SetBeak (r g b : Z)
| SetTail (position r g b : Z)
| PlayTone (freq_hz : Z) (duration_s : R)
| StopAll
| GetDistance
| GetLine
| GetLight
| GetTemperature
| GetOrientation
| GetAcceleration
| Show (env : Env)
| Close (env : Env)
| AtExit (env : Env).

Definition exec (c : Cmd) : M unit :=
  match c with
  | Wheels l r d => wheels l r d
  | SetMove dir d sp => setMove dir d sp
  | SetTurn dir d sp => setTurn dir d sp
  | SetLED r g b => setLED r g b
  | SetBeak r g b => setBeak r g b
  | SetTail p r g b => setTail p r g b
  | PlayTone f d => playTone f d
  | StopAll => stopAll
  | GetDistance => getDistance ;; ret tt
  | GetLine => getLine ;; ret tt
  | GetLight => getLight ;; ret tt
  | GetTemperature => getTemperature ;; ret tt
  | GetOrientation => getOrientation ;; ret tt
  | GetAcceleration => getAcceleration ;; ret tt
  | Show env => show env
  | Close env => close env
  | AtExit env => atexit_hook env
  end.

(** The state after a command, whether it returned or raised; the values
    the sensor stubs return are dropped. *)
Definition after (c : Cmd) (s : Finch) : Finch := snd (exec c s).

(** The state after a sequence of commands. *)
Definition run (cs : list Cmd) (s : Finch) : Finch := fold_left (fun s c => after c s) cs s.

(** * Specification-level descriptions

    The definitions of this part follow the words of the specification;
    the theorems below compare them with the methods above. *)

(** ** The integrator *)

(** The point a pose is at. *)
Definition position (p : Pose) : point := (x p, y p).

(** The substep as the specification words it: straight when [|omega|] is
    below the epsilon, otherwise an arc of radius [v / omega]. *)
Definition substep_stated (v omega h : R) (p : Pose) : Pose :=
  if Rlt_dec (Rabs omega) 1e-9 then
    mkPose (x p + v * h * cos (th p)) (y p + v * h * sin (th p)) (th p)
  else
    let th_new := th p + omega * h in
    mkPose (x p + (v / omega) * (sin th_new - sin (th p)))
           (y p - (v / omega) * (cos th_new - cos (th p)))
           th_new.

(** The radius the arc case turns on: [v / omega], and 0 for a linear
    velocity of at most [1e-12] in magnitude. *)
Definition turning_radius (v omega : R) : R :=
  if Rgt_dec (Rabs v) 1e-12 then v / omega else 0.

(** The substep with that radius. *)
Definition substep (v omega h : R) (p : Pose) : Pose :=
  if Rlt_dec (Rabs omega) 1e-9 then
    mkPose (x p + v * h * cos (th p)) (y p + v * h * sin (th p)) (th p)
  else
    let th_new := th p + omega * h in
    mkPose (x p + turning_radius v omega * (sin th_new - sin (th p)))
           (y p - turning_radius v omega * (cos th_new - cos (th p)))
           th_new.

(** The poses after 1, 2, ..., n applications of [f], in that order. *)
Fixpoint samples (n : nat) (f : Pose -> Pose) (p : Pose) : list Pose :=
  match n with
  | O => []
  | S k => f p :: samples k f (f p)
  end.

(** The pose after n applications of [f]. *)
Fixpoint iterate (n : nat) (f : Pose -> Pose) (p : Pose) : Pose :=
  match n with
  | O => p
  | S k => iterate k f (f p)
  end.

(** N = ceil(duration / 0.02). *)
Definition substeps (dt : R) : Z := Zceil (dt / 0.02).

(** What the specification says a call of the integrator with a positive
    duration does, for a given reading [step] of "one substep": it
    returns, the pose is the N-th iterate, the path has grown by the N
    intermediate positions and nothing else has changed. *)
Definition integrates (step : R -> R -> R -> Pose -> Pose)
    (vl vr dt : R) (s : Finch) : Prop :=
  let v := (vl + vr) / 2 in
  let omega := (vr - vl) / 10 in
  let N := substeps dt in
  let h := dt / IZR N in
  (1 <= N)%Z /\
  exists s',
    _advance vl vr dt s = (Ok tt, s') /\
    _pose s' = iterate (Z.to_nat N) (step v omega h) (_pose s) /\
    _path s' = _path s ++ map position (samples (Z.to_nat N) (step v omega h) (_pose s)) /\
    List.length (_path s') = (List.length (_path s) + Z.to_nat N)%nat /\
    _closed s' = _closed s /\
    written s' = written s.

(** ** The commands *)

(** +1 for the first direction of a pair ("F", "L"), -1 otherwise. *)
Definition direction_sign (first direction : string) : R :=
  if String.eqb direction first then 1 else -1.

(** The duration [setMove] computes once the speed has passed its test:
    [abs(distance_cm) / speed_cm_s] on the signed distance and the
    absolute speed. *)
Definition setMove_duration (direction : string) (distance_cm speed_cm_s : R) : result R :=
  let distance_cm := distance_cm * (if String.eqb direction "F" then 1 else -1) in
  let speed_cm_s := Rabs speed_cm_s in
  truediv (Rabs distance_cm) speed_cm_s.

(** The duration [setTurn] computes once the speed has passed its test:
    [abs(math.radians(degrees)) / abs(omega)]. *)
Definition setTurn_duration (direction : string) (degrees deg_per_s : R) : result R :=
  let degrees := degrees * (if String.eqb direction "L" then 1 else -1) in
  let deg_per_s := Rabs deg_per_s in
  let omega_sign := if Rge_dec degrees 0.0 then 1.0 else -1.0 in
  let omega := radians deg_per_s * omega_sign in
  truediv (Rabs (radians degrees)) (Rabs omega).

(** A duration was computed, without an error, and is at most 0. *)
Definition at_most_0 (duration : result R) : Prop :=
  exists d, duration = Ok d /\ d <= 0.

(** The calls the no-op law is stated for: the duration, supplied or
    computed, is at most 0, or the supplied speed is at most 0. *)
Definition degenerate_stated (c : Cmd) : Prop :=
  match c with
  | Wheels _ _ None => True
  | Wheels _ _ (Some d) => d <= 0
  | SetMove dir d sp => sp <= 0 \/ at_most_0 (setMove_duration dir d sp)
  | SetTurn dir deg dps => dps <= 0 \/ at_most_0 (setTurn_duration dir deg dps)
  | _ => False
  end.

(** The same with a speed of exactly 0 in place of a speed of at most 0. *)
Definition degenerate (c : Cmd) : Prop :=
  match c with
  | Wheels _ _ None => True
  | Wheels _ _ (Some d) => d <= 0
  | SetMove dir d sp => sp = 0 \/ at_most_0 (setMove_duration dir d sp)
  | SetTurn dir deg dps => dps = 0 \/ at_most_0 (setTurn_duration dir deg dps)
  | _ => False
  end.

(** The calls that trigger the render. *)
Definition is_trigger (c : Cmd) : Prop :=
  match c with
  | Close _ | AtExit _ => True
  | _ => False
  end.

(** Surroundings in which every file opens and every library works. *)
Definition env_all_fine : Env := mkEnv true (Some true) true true.

(** ** What a call can do to the object *)

(** [s'] is [s] after some motion: the path has grown at its end by the
    positions of a sequence of poses, the pose is the last of them, and
    nothing else has changed. *)
Definition moved (s s' : Finch) : Prop :=
  exists poses : list Pose,
    _pose s' = last poses (_pose s) /\
    _path s' = _path s ++ map position poses /\
    _closed s' = _closed s /\
    written s' = written s.

(** A computation that only reads the object. *)
Definition reads {A : Type} (c : M A) : Prop := forall s, snd (c s) = s.

(** [s] with further write attempts in its history. *)
Definition with_written (s : Finch) (evs : list write_attempt) : Finch :=
  mkFinch (_pose s) (_path s) (_closed s) (written s ++ evs).

Definition target_eqb (a b : target) : bool :=
  match a, b with
  | SvgFile, SvgFile | PngFile, PngFile => true
  | _, _ => false
  end.

(** How often file [t] was opened for writing in a history. *)
Definition attempts (t : target) (l : list write_attempt) : nat :=
  List.length (filter (fun a => target_eqb (wfile a) t) l).

(** The attempts of one render: none, the SVG alone, or the SVG and then
    the PNG. *)
Inductive one_render : list write_attempt -> Prop :=
| render_nothing : one_render []
| render_svg (ok : bool) : one_render [mkAttempt SvgFile ok]
| render_both (ok : bool) :
    one_render [mkAttempt SvgFile true; mkAttempt PngFile ok].

(** [s'] is [s] after a trigger of the render: the flag is set, and the
    files were tried only if it was not set before and the path had two
    points. *)
Definition rendered (s s' : Finch) : Prop :=
  _pose s' = _pose s /\
  _path s' = _path s /\
  _closed s' = true /\
  exists evs,
    written s' = written s ++ evs /\
    one_render evs /\
    (_closed s = true -> evs = []) /\
    ((List.length (_path s) < 2)%nat -> evs = []).

(** ** Invariants *)

(** The path ends at the position of the pose. *)
Definition ends_at_pose (s : Finch) : Prop :=
  exists pre, _path s = pre ++ [position (_pose s)].

(** Nothing is written while the flag is down, and no file is ever opened
    twice. *)
Definition one_shot (s : Finch) : Prop :=
  (_closed s = false -> written s = []) /\
  forall t, (attempts t (written s) <= 1)%nat.

(** ** The bounding box *)

(** [m] is in [l] and no element of [l] is smaller. *)
Definition is_min (m : R) (l : list R) : Prop :=
  In m l /\ forall z, In z l -> m <= z.

(** [m] is in [l] and no element of [l] is greater. *)
Definition is_max (m : R) (l : list R) : Prop :=
  In m l /\ forall z, In z l -> z <= m.

(** The extent of an axis: its span, and [1e-6] when the span is smaller. *)
Definition extent (lo hi : R) : R := Rmax 1e-6 (hi - lo).

(** The view rectangle of the specification for given extremes: each axis
    starts 10% of its extent below the minimum and is the extent plus 10%
    of it on either side long. *)
Definition view_of (minx maxx miny maxy : R) : R * R * R * R :=
  let dx := extent minx maxx in
  let dy := extent miny maxy in
  (minx - 0.1 * dx, miny - 0.1 * dy, dx + 2 * (0.1 * dx), dy + 2 * (0.1 * dy)).

(** ** What a render writes *)

(** The write attempts of a render that gets to the files, read off the
    surroundings: the SVG is always tried; the PNG is tried after it when
    the SVG was written and the imaging library produced the bytes. *)
Definition render_events (env : Env) : list write_attempt :=
  if svg_writable env then
    match pil env with
    | Some true => [mkAttempt SvgFile true; mkAttempt PngFile (png_writable env)]
    | _ => [mkAttempt SvgFile true]
    end
  else [mkAttempt SvgFile false].

(** A point strictly inside a rectangle given by corner, width and height. *)
Definition inside_view (view : R * R * R * R) (p : point) : Prop :=
  let '(vx, vy, w, h) := view in
  vx < fst p < vx + w /\ vy < snd p < vy + h.

(** * Proofs *)

Ltac run_monad :=
  unfold bind, ret, lift, raise, get, set_pose, set_closed, path_append; cbn [fst snd].

(** ** Division *)

Lemma truediv_ok (a b : R) : b <> 0 -> truediv a b = Ok (a / b).
Proof.
  intros Hb. unfold truediv. destruct (Req_dec_T b 0) as [E | _]; [contradiction | reflexivity].
Qed.

Lemma truediv_zero (a : R) : truediv a 0 = Raise ZeroDivisionError.
Proof.
  unfold truediv. destruct (Req_dec_T 0 0) as [_ | N]; [reflexivity | now elim N].
Qed.

(** ** The number of substeps *)

Lemma substeps_bounds (dt : R) :
  IZR (substeps dt) - 1 < dt / 0.02 <= IZR (substeps dt).
Proof. unfold substeps. apply Zceil_bound. Qed.

Lemma substeps_pos (dt : R) : 0 < dt -> (1 <= substeps dt)%Z.
Proof.
  intros Hdt.
  destruct (substeps_bounds dt) as [_ Hle].
  assert (0 < IZR (substeps dt)) by (apply Rlt_le_trans with (dt / 0.02); [lra | exact Hle]).
  assert (0 < substeps dt)%Z by (apply lt_IZR; assumption).
  lia.
Qed.

Lemma substeps_max (dt : R) : 0 < dt -> Z.max 1 (substeps dt) = substeps dt.
Proof. intros Hdt. apply Z.max_r. now apply substeps_pos. Qed.

Lemma substeps_IZR_pos (dt : R) : 0 < dt -> 0 < IZR (substeps dt).
Proof.
  intros Hdt. apply IZR_lt. pose proof (substeps_pos dt Hdt). lia.
Qed.

(** ** The loop *)

Lemma samples_length (n : nat) (f : Pose -> Pose) (p : Pose) :
  List.length (samples n f p) = n.
Proof.
  revert p. induction n as [| n IH]; intros p; simpl; [reflexivity | now rewrite IH].
Qed.

Lemma samples_last_cons (n : nat) (f : Pose -> Pose) :
  forall p q d : Pose, last (q :: samples n f q) d = iterate n f q.
Proof.
  induction n as [| n IH]; intros p q d; [reflexivity |].
  simpl samples. simpl iterate. rewrite <- (IH p (f q) d). reflexivity.
Qed.

Lemma samples_last (n : nat) (f : Pose -> Pose) (p : Pose) :
  last (samples n f p) p = iterate n f p.
Proof.
  destruct n as [| n]; [reflexivity |].
  simpl samples. simpl iterate. apply (samples_last_cons n f p).
Qed.

Lemma big_omega_nonzero (omega : R) : ~ Rabs omega < 1e-9 -> omega <> 0.
Proof.
  intros H E. apply H. rewrite E, Rabs_R0. lra.
Qed.

Lemma advance_body_spec (v omega h : R) (p : Pose) (s : Finch) :
  advance_body v omega h p s =
  (Ok (substep v omega h p),
   mkFinch (_pose s) (_path s ++ [position (substep v omega h p)]) (_closed s) (written s)).
Proof.
  unfold advance_body, substep, turning_radius.
  destruct (Rlt_dec (Rabs omega) 1e-9) as [Hs | Ha].
  - run_monad. reflexivity.
  - destruct (Rgt_dec (Rabs v) 1e-12) as [Hv | Hv].
    + run_monad. rewrite (truediv_ok v omega (big_omega_nonzero omega Ha)). reflexivity.
    + run_monad. replace 0.0 with 0 by lra. reflexivity.
Qed.

Lemma advance_loop_spec (n : nat) (v omega h : R) :
  forall (p : Pose) (s : Finch),
    advance_loop n v omega h p s =
    (Ok (iterate n (substep v omega h) p),
     mkFinch (_pose s)
             (_path s ++ map position (samples n (substep v omega h) p))
             (_closed s) (written s)).
Proof.
  induction n as [| n IH]; intros p s.
  - simpl. unfold ret. rewrite app_nil_r. destruct s; reflexivity.
  - simpl advance_loop. unfold bind at 1. rewrite advance_body_spec.
    rewrite IH. cbn [_pose _path _closed written samples iterate map].
    rewrite <- app_assoc. reflexivity.
Qed.

(** [_advance] with a positive duration, in closed form. *)
Lemma advance_positive (vl vr dt : R) (s : Finch) :
  0 < dt ->
  let v := 0.5 * (vl + vr) in
  let omega := (vr - vl) / 10 in
  let N := Z.to_nat (substeps dt) in
  let h := dt / IZR (substeps dt) in
  _advance vl vr dt s =
  (Ok tt,
   mkFinch (iterate N (substep v omega h) (_pose s))
           (_path s ++ map position (samples N (substep v omega h) (_pose s)))
           (_closed s) (written s)).
Proof.
  intros Hdt v omega N h.
  unfold _advance.
  destruct (Rle_dec dt 0.0) as [Hle | _]; [lra |].
  unfold WHEELBASE_CM.
  unfold bind at 1. unfold lift at 1. rewrite truediv_ok by lra.
  unfold bind at 1. unfold get at 1.
  unfold bind at 1. unfold lift at 1. rewrite truediv_ok by lra.
  fold (substeps dt). rewrite (substeps_max dt Hdt).
  unfold bind at 1. unfold lift at 1.
  rewrite truediv_ok by (pose proof (substeps_IZR_pos dt Hdt); lra).
  unfold bind at 1. rewrite advance_loop_spec.
  unfold set_pose. cbn [_pose _path _closed written].
  replace ((vr - vl) / 10.0) with omega by (unfold omega; lra).
  reflexivity.
Qed.

Lemma advance_nonpositive (vl vr dt : R) (s : Finch) :
  dt <= 0 -> _advance vl vr dt s = (Ok tt, s).
Proof.
  intros Hdt. unfold _advance.
  destruct (Rle_dec dt 0.0) as [_ | Hn]; [reflexivity | lra].
Qed.

(** ** The integrator (C1) *)

Lemma integrates_substep (vl vr dt : R) (s : Finch) :
  0 < dt -> integrates substep vl vr dt s.
Proof.
  intros Hdt. unfold integrates.
  split; [now apply substeps_pos |].
  pose proof (advance_positive vl vr dt s Hdt) as Hadv. cbv zeta in Hadv.
  replace (0.5 * (vl + vr)) with ((vl + vr) / 2) in Hadv by lra.
  eexists. split; [exact Hadv |].
  cbn [_pose _path _closed written].
  rewrite length_app, length_map, samples_length.
  repeat split; reflexivity.
Qed.

Lemma substeps_one_tick : substeps 0.02 = 1%Z.
Proof. unfold substeps. apply Zceil_eq. lra. Qed.

(** C1.  A call of the pose integrator with wheel speeds [vl], [vr] and a
    duration [dt > 0] returns normally; with v = (vl+vr)/2,
    omega = (vr-vl)/10, N = ceil(dt/0.02) >= 1 and h = dt/N it leaves the
    pose at the N-th iterate of the substep and appends the position after
    each of the N substeps to the path, which so grows by exactly N
    points.  The substep is the straight-line update when |omega| < 1e-9
    and otherwise the arc update on the radius R = v/omega, where R is
    taken as 0 when |v| <= 1e-12. *)
Theorem advance_integrates (vl vr dt : R) (s : Finch) :
  0 < dt -> integrates substep vl vr dt s.
Proof. exact (integrates_substep vl vr dt s). Qed.

Lemma advance_integrates_witness :
  0 < 2 /\ integrates substep 5 5 2 __init__.
Proof. split; [lra | apply (advance_integrates 5 5 2 __init__); lra]. Defined.

(** C1 as stated, with the radius [v / omega] throughout, fails for a slow
    arc: wheels at -1 and 1 + 1e-12 cm/s for one 20 ms substep give
    v = 5e-13, below the guard, and the code leaves the position where it
    was while the stated update moves it. *)
Lemma advance_stated_radius_fails :
  ~ integrates substep_stated (-1) (1 + 1e-12) 0.02 __init__.
Proof.
  intros [_ [s' [Hadv [Hpose _]]]].
  rewrite advance_positive in Hadv by lra.
  injection Hadv as Hs'. rewrite <- Hs' in Hpose. cbn [_pose] in Hpose.
  rewrite substeps_one_tick in Hpose. cbn [Z.to_nat Pos.to_nat Pos.iter_op iterate] in Hpose.
  unfold substep, substep_stated, turning_radius in Hpose.
  set (omega := (1 + 1e-12 - -1) / 10) in *.
  assert (Homega : omega = 0.2 + 1e-13) by (unfold omega; lra).
  destruct (Rlt_dec (Rabs omega) 1e-9) as [Hs | _].
  { rewrite Rabs_pos_eq in Hs by lra. lra. }
  destruct (Rgt_dec (Rabs (0.5 * (-1 + (1 + 1e-12)))) 1e-12) as [Hv | _].
  { rewrite Rabs_pos_eq in Hv by lra. lra. }
  unfold __init__ in Hpose. cbn [x y th] in Hpose.
  injection Hpose as Hx _.
  replace 0.0 with 0 in Hx by lra. rewrite sin_0 in Hx.
  assert (Hsin : 0 < sin (0 + omega * (0.02 / 1))).
  { apply sin_gt_0; [lra |]. pose proof PI2_1. lra. }
  assert (Hrad : 0 < (-1 + (1 + 1e-12)) / 2 / omega).
  { apply Rdiv_lt_0_compat; lra. }
  pose proof (Rmult_lt_0_compat _ _ Hrad Hsin). lra.
Qed.

(** ** What a motor command can do to the object *)

Lemma moved_refl (s : Finch) : moved s s.
Proof.
  exists []. simpl. rewrite app_nil_r. repeat split; reflexivity.
Qed.

Lemma advance_moved (vl vr dt : R) (s : Finch) :
  exists s', _advance vl vr dt s = (Ok tt, s') /\ moved s s'.
Proof.
  destruct (Rle_dec dt 0) as [Hle | Hgt].
  - exists s. split; [now apply advance_nonpositive | apply moved_refl].
  - eexists. split; [apply advance_positive; lra |].
    eexists. cbn [_pose _path _closed written].
    split; [symmetry; apply samples_last |].
    repeat split; reflexivity.
Qed.

Lemma wheels_moved (l r : R) (d : option R) (s : Finch) :
  exists s', wheels l r d s = (Ok tt, s') /\ moved s s'.
Proof.
  destruct d as [d |]; simpl.
  - apply advance_moved.
  - exists s. split; [reflexivity | apply moved_refl].
Qed.

Lemma setMove_moved (dir : string) (d sp : R) (s : Finch) :
  exists s', setMove dir d sp s = (Ok tt, s') /\ moved s s'.
Proof.
  unfold setMove.
  destruct (Rle_dec (Rabs sp) 0.0) as [Hz | Hpos].
  - exists s. split; [reflexivity | apply moved_refl].
  - unfold bind, lift. rewrite truediv_ok by lra. apply advance_moved.
Qed.

Lemma radians_pos (d : R) : 0 < d -> 0 < radians d.
Proof.
  intros Hd. unfold radians. pose proof PI_RGT_0.
  apply Rmult_lt_0_compat; lra.
Qed.

(** The divisor of [setTurn] is the angular speed in radians per second. *)
Lemma turn_rate_abs (degrees dps : R) :
  0 < dps ->
  Rabs (radians dps * (if Rge_dec degrees 0.0 then 1.0 else -1.0)) = radians dps.
Proof.
  intros Hd. pose proof (radians_pos dps Hd).
  destruct (Rge_dec degrees 0.0).
  - rewrite Rabs_pos_eq by lra. lra.
  - rewrite Rabs_left by lra. lra.
Qed.

Lemma setTurn_moved (dir : string) (deg dps : R) (s : Finch) :
  exists s', setTurn dir deg dps s = (Ok tt, s') /\ moved s s'.
Proof.
  unfold setTurn.
  destruct (Rle_dec (Rabs dps) 0.0) as [Hz | Hpos].
  - exists s. split; [reflexivity | apply moved_refl].
  - unfold bind, lift.
    assert (Hd : 0 < Rabs dps) by lra.
    rewrite truediv_ok.
    + apply advance_moved.
    + rewrite turn_rate_abs by exact Hd. pose proof (radians_pos _ Hd). lra.
Qed.

(** ** What a render can do to the object *)

Lemma one_render_attempts (t : target) (evs : list write_attempt) :
  one_render evs -> (attempts t evs <= 1)%nat.
Proof.
  intros H. destruct H; destruct t; unfold attempts; simpl; lia.
Qed.

Lemma reads_ret {A : Type} (a : A) : reads (ret a).
Proof. intros s. reflexivity. Qed.

Lemma reads_raise {A : Type} (e : exn) : reads (@raise A e).
Proof. intros s. reflexivity. Qed.

Lemma reads_lift {A : Type} (r : result A) : reads (lift r).
Proof. intros s. reflexivity. Qed.

Lemma reads_get : reads get.
Proof. intros s. reflexivity. Qed.

Lemma reads_bind {A B : Type} (c : M A) (k : A -> M B) :
  reads c -> (forall a, reads (k a)) -> reads (bind c k).
Proof.
  intros Hc Hk s. unfold bind.
  specialize (Hc s). destruct (c s) as [[a | e] s1]; simpl in Hc; subst s1.
  - apply Hk.
  - reflexivity.
Qed.

Ltac reads_tac :=
  repeat first
    [ apply reads_ret | apply reads_raise | apply reads_lift | apply reads_get
    | apply reads_bind; [| intros ?]
    | match goal with
      | |- reads (match ?v with _ => _ end) => destruct v
      | |- reads (if ?b then _ else _) => destruct b
      end ].

Lemma reads_aspect (w h : R) : reads (aspect w h).
Proof. unfold aspect. reads_tac. Qed.

Lemma reads_bounds : reads _bounds.
Proof. unfold _bounds. reads_tac. Qed.

Lemma reads_to_svg_string : reads _to_svg_string.
Proof.
  unfold _to_svg_string.
  apply reads_bind; [apply reads_bounds | intros [[[a b] c] d]].
  apply reads_bind; [apply reads_get | intros self].
  apply reads_bind; [apply reads_aspect | intros r]. apply reads_ret.
Qed.

Lemma reads_png_bytes (env : Env) : reads (_png_bytes env).
Proof.
  unfold _png_bytes. destruct (pil env) as [drawn |]; [| apply reads_ret].
  apply reads_bind; [apply reads_bounds | intros [[[a b] c] d]].
  apply reads_bind; [apply reads_aspect | intros r].
  reads_tac.
Qed.

Lemma with_written_nil (s : Finch) : with_written s [] = s.
Proof. unfold with_written. rewrite app_nil_r. destruct s; reflexivity. Qed.

Lemma write_svg_png_effect (env : Env) (s : Finch) :
  exists evs, one_render evs /\ snd (_write_svg_png env s) = with_written s evs.
Proof.
  unfold _write_svg_png, bind at 1.
  pose proof (reads_to_svg_string s) as Hsvg.
  destruct (_to_svg_string s) as [[doc | e] s1]; simpl in Hsvg; subst s1.
  2:{ exists []. split; [constructor | now rewrite with_written_nil]. }
  unfold bind at 1, open_write at 1.
  destruct (svg_writable env).
  2:{ exists [mkAttempt SvgFile false]. split; [constructor | reflexivity]. }
  unfold try_pass, bind.
  set (s2 := mkFinch (_pose s) (_path s) (_closed s) (written s ++ [mkAttempt SvgFile true])).
  pose proof (reads_png_bytes env s2) as Hpng.
  destruct (_png_bytes env s2) as [[[bmp |] | e] s3]; simpl in Hpng; subst s3.
  - exists [mkAttempt SvgFile true; mkAttempt PngFile (png_writable env)].
    split; [constructor |].
    unfold open_write, with_written, s2. cbn [_pose _path _closed written].
    rewrite <- app_assoc.
    destruct (png_writable env); reflexivity.
  - exists [mkAttempt SvgFile true]. split; [constructor | reflexivity].
  - exists [mkAttempt SvgFile true]. split; [constructor | reflexivity].
Qed.

Lemma maybe_render_rendered (env : Env) (s : Finch) :
  exists s', _maybe_render env s = (Ok tt, s') /\ rendered s s'.
Proof.
  unfold _maybe_render, bind at 1, get at 1.
  destruct (_closed s) eqn:Hc.
  - exists s. split; [reflexivity |].
    repeat split; try assumption.
    exists []. rewrite app_nil_r. repeat split; try reflexivity. constructor.
  - unfold bind, set_closed, get. cbn [_pose _path _closed written].
    destruct (Nat.ltb_spec (List.length (_path s)) 2) as [Hshort | Hlong].
    + eexists. split; [reflexivity |]. cbn [_pose _path _closed written].
      repeat split.
      exists []. rewrite app_nil_r. repeat split; try reflexivity. constructor.
    + unfold try_pass.
      set (s1 := mkFinch (_pose s) (_path s) true (written s)).
      destruct (write_svg_png_effect env s1) as [evs [Hone Hs]].
      destruct (_write_svg_png env s1) as [[[] | e] s2]; simpl in Hs; subst s2;
        (eexists; split; [reflexivity |]; cbn [with_written s1 _pose _path _closed written];
         repeat split; exists evs; repeat split;
         [assumption | intros; congruence | intros; lia]).
Qed.

(** ** Every command returns, and either moves or triggers the render *)

Lemma reads_try_or {A : Type} (c : M A) (d : A) : reads c -> reads (try_or c d).
Proof.
  intros Hc s. unfold try_or. specialize (Hc s).
  destruct (c s) as [[a | e] s1]; exact Hc.
Qed.

Lemma reads_repr_mimebundle (env : Env) : reads (_repr_mimebundle_ env).
Proof.
  unfold _repr_mimebundle_.
  apply reads_bind; [apply reads_try_or, reads_png_bytes | intros png].
  apply reads_bind; [apply reads_to_svg_string | intros svg]. apply reads_ret.
Qed.

Lemma show_returns (env : Env) (s : Finch) : show env s = (Ok tt, s).
Proof.
  unfold show, try_pass.
  set (c := if ipython env
            then _repr_mimebundle_ env ;; _repr_png_ env ;; ret tt
            else raise ImportError).
  assert (H : reads c).
  { unfold c. destruct (ipython env); [| apply reads_raise].
    apply reads_bind; [apply reads_repr_mimebundle | intros b].
    apply reads_bind; [apply reads_png_bytes | intros q]. apply reads_ret. }
  specialize (H s).
  destruct (c s) as [[[] | e] s1]; simpl in H; subst s1; reflexivity.
Qed.

Lemma exec_motor (c : Cmd) (s : Finch) :
  ~ is_trigger c -> exists s', exec c s = (Ok tt, s') /\ moved s s'.
Proof.
  intros Hc. destruct c; simpl in Hc; try (now elim Hc); simpl exec;
    try (exists s; split; [reflexivity | apply moved_refl]).
  - apply wheels_moved.
  - apply setMove_moved.
  - apply setTurn_moved.
  - exists s. split; [apply show_returns | apply moved_refl].
Qed.

Lemma exec_trigger (c : Cmd) (s : Finch) :
  is_trigger c -> exists s', exec c s = (Ok tt, s') /\ rendered s s'.
Proof.
  intros Hc. destruct c; simpl in Hc; try contradiction; apply maybe_render_rendered.
Qed.

Lemma is_trigger_dec (c : Cmd) : {is_trigger c} + {~ is_trigger c}.
Proof. destruct c; simpl; auto. Qed.

(** No command raises. *)
Lemma exec_cases (c : Cmd) (s : Finch) :
  exists s', exec c s = (Ok tt, s') /\ (moved s s' \/ rendered s s').
Proof.
  destruct (is_trigger_dec c) as [Ht | Hm].
  - destruct (exec_trigger c s Ht) as [s' [E H]]. eauto.
  - destruct (exec_motor c s Hm) as [s' [E H]]. eauto.
Qed.

Lemma after_motor (c : Cmd) (s : Finch) : ~ is_trigger c -> moved s (after c s).
Proof.
  intros Hc. unfold after. destruct (exec_motor c s Hc) as [s' [E H]]. now rewrite E.
Qed.

Lemma after_trigger (c : Cmd) (s : Finch) : is_trigger c -> rendered s (after c s).
Proof.
  intros Hc. unfold after. destruct (exec_trigger c s Hc) as [s' [E H]]. now rewrite E.
Qed.

Lemma after_cases (c : Cmd) (s : Finch) :
  moved s (after c s) \/ rendered s (after c s).
Proof.
  unfold after. destruct (exec_cases c s) as [s' [E H]]. rewrite E. exact H.
Qed.

Lemma run_app (cs1 cs2 : list Cmd) (s : Finch) :
  run (cs1 ++ cs2) s = run cs2 (run cs1 s).
Proof. unfold run. apply fold_left_app. Qed.

Lemma run_cons (c : Cmd) (cs : list Cmd) (s : Finch) :
  run (c :: cs) s = run cs (after c s).
Proof. reflexivity. Qed.

(** A property kept by every command holds along every program. *)
Lemma run_invariant (P : Finch -> Prop) :
  (forall c s, P s -> P (after c s)) ->
  forall cs s, P s -> P (run cs s).
Proof.
  intros Hstep cs. induction cs as [| c cs IH]; intros s Hs; [exact Hs |].
  rewrite run_cons. apply IH, Hstep, Hs.
Qed.

(** ** The path only grows at its end (C8) *)

Lemma after_extends (c : Cmd) (s : Finch) :
  exists ext, _path (after c s) = _path s ++ ext.
Proof.
  destruct (after_cases c s) as [[poses [_ [Hp _]]] | [_ [Hp _]]].
  - eauto.
  - exists []. now rewrite app_nil_r.
Qed.

Lemma run_extends (cs : list Cmd) :
  forall s, exists ext, _path (run cs s) = _path s ++ ext.
Proof.
  induction cs as [| c cs IH]; intros s.
  - exists []. simpl. now rewrite app_nil_r.
  - rewrite run_cons. destruct (IH (after c s)) as [e2 H2].
    destruct (after_extends c s) as [e1 H1].
    exists (e1 ++ e2). rewrite H2, H1, app_assoc. reflexivity.
Qed.

(** C8.  Along every program run on a fresh robot the path is never empty
    and starts with the origin (0, 0); whatever is run afterwards only
    appends to it: the earlier path is a prefix of the later one, and the
    length of the path never decreases. *)
Theorem path_append_only (cs cs' : list Cmd) :
  let s := run cs __init__ in
  let s' := run (cs ++ cs') __init__ in
  _path s <> [] /\
  hd_error (_path s) = Some (0, 0) /\
  (exists ext, _path s' = _path s ++ ext) /\
  (List.length (_path s) <= List.length (_path s'))%nat.
Proof.
  intros s s'.
  destruct (run_extends cs __init__) as [e He].
  assert (Hhd : hd_error (_path s) = Some (0, 0)).
  { unfold s. rewrite He. simpl. do 2 f_equal; lra. }
  assert (Hext : exists ext, _path s' = _path s ++ ext).
  { unfold s'. rewrite run_app. apply run_extends. }
  split; [| split; [exact Hhd | split; [exact Hext |]]].
  - intros E. rewrite E in Hhd. discriminate.
  - destruct Hext as [ext ->]. rewrite length_app. lia.
Qed.

(** ** The path ends where the robot is (C9) *)

Lemma moved_ends_at_pose (s s' : Finch) :
  moved s s' -> ends_at_pose s -> ends_at_pose s'.
Proof.
  intros [poses [Hpose [Hpath _]]] [pre Hpre].
  unfold ends_at_pose. rewrite Hpath, Hpose.
  destruct poses as [| q poses] using rev_ind.
  - exists pre. simpl. rewrite app_nil_r. exact Hpre.
  - exists (_path s ++ map position poses).
    rewrite last_last, map_app, app_assoc. reflexivity.
Qed.

Lemma after_ends_at_pose (c : Cmd) (s : Finch) :
  ends_at_pose s -> ends_at_pose (after c s).
Proof.
  intros H. destruct (after_cases c s) as [Hm | [Hpose [Hpath _]]].
  - now apply (moved_ends_at_pose s).
  - unfold ends_at_pose. rewrite Hpose, Hpath. exact H.
Qed.

(** C9.  After construction and after every program of public commands
    the last element of the path is the (x, y) of the current pose. *)
Theorem path_ends_at_pose (cs : list Cmd) :
  let s := run cs __init__ in
  exists pre, _path s = pre ++ [(x (_pose s), y (_pose s))].
Proof.
  apply (run_invariant ends_at_pose after_ends_at_pose).
  exists []. reflexivity.
Qed.

(** ** One render per robot (C6, C7, C10) *)

Lemma after_one_shot (c : Cmd) (s : Finch) :
  one_shot s -> one_shot (after c s).
Proof.
  intros [Hopen Hcount].
  destruct (after_cases c s) as [[_ [_ [_ [Hc Hw]]]] | [_ [_ [Hc [evs [Hw [Hone [Hcl _]]]]]]]].
  - unfold one_shot. rewrite Hc, Hw. split; assumption.
  - unfold one_shot. rewrite Hc, Hw. split; [discriminate |].
    intros t. destruct (_closed s) eqn:E.
    + rewrite (Hcl eq_refl), app_nil_r. apply Hcount.
    + rewrite (Hopen eq_refl). simpl. now apply one_render_attempts.
Qed.

(** C6.  Whatever program is run on a fresh robot, with any number of
    [close()] calls and firings of the exit hook in any order and any
    commands in between, each of the two output files is opened for
    writing at most once. *)
Theorem render_at_most_once (cs : list Cmd) :
  (attempts SvgFile (written (run cs __init__)) <= 1)%nat /\
  (attempts PngFile (written (run cs __init__)) <= 1)%nat.
Proof.
  assert (H : one_shot (run cs __init__)).
  { apply (run_invariant one_shot after_one_shot).
    split; [reflexivity | intros t; unfold attempts; simpl; lia]. }
  destruct H as [_ H]. split; apply H.
Qed.

Lemma trigger_short_path (c : Cmd) (s : Finch) :
  is_trigger c -> (List.length (_path s) < 2)%nat ->
  exists s',
    exec c s = (Ok tt, s') /\
    written s' = written s /\ _path s' = _path s /\ _pose s' = _pose s /\
    _closed s' = true.
Proof.
  intros Ht Hlen.
  destruct (exec_trigger c s Ht) as [s' [E [Hpose [Hpath [Hc [evs [Hw [_ [_ Hshort]]]]]]]]].
  exists s'. rewrite Hw, (Hshort Hlen), app_nil_r. repeat split; assumption.
Qed.

(** C7.  On a robot whose path has fewer than 2 points, [close()] and the
    exit hook return without raising and open no output file. *)
Theorem short_path_skips_render (c : Cmd) (s : Finch) :
  is_trigger c -> (List.length (_path s) < 2)%nat ->
  exists s', exec c s = (Ok tt, s') /\ written s' = written s.
Proof.
  intros Ht Hlen.
  destruct (trigger_short_path c s Ht Hlen) as [s' [E [Hw _]]]. eauto.
Qed.

Lemma short_path_skips_render_witness :
  exists s', exec (Close env_all_fine) __init__ = (Ok tt, s') /\ written s' = written __init__.
Proof.
  apply (short_path_skips_render (Close env_all_fine) __init__); simpl; [exact I | lia].
Defined.

Lemma closed_stays (c : Cmd) (s : Finch) :
  _closed s = true ->
  _closed (after c s) = true /\ written (after c s) = written s.
Proof.
  intros Hc.
  destruct (after_cases c s) as [[_ [_ [_ [Hc' Hw]]]] | [_ [_ [Hc' [evs [Hw [_ [Hcl _]]]]]]]].
  - rewrite Hc', Hw. auto.
  - rewrite Hc', Hw, (Hcl Hc), app_nil_r. auto.
Qed.

Lemma closed_run (cs : list Cmd) :
  forall s, _closed s = true ->
    _closed (run cs s) = true /\ written (run cs s) = written s.
Proof.
  induction cs as [| c cs IH]; intros s Hc; [auto |].
  rewrite run_cons. destruct (closed_stays c s Hc) as [Hc' Hw].
  destruct (IH _ Hc') as [Hc'' Hw']. rewrite Hw', Hw. auto.
Qed.

(** C10.  When [close()] or the exit hook fires on a robot whose path has
    fewer than 2 points, the flag is set although nothing is rendered, and
    whatever is run afterwards (moves, further [close()] calls, the exit
    hook) opens no output file. *)
Theorem skipped_render_consumes_the_shot (c : Cmd) (s : Finch) (cs : list Cmd) :
  is_trigger c -> (List.length (_path s) < 2)%nat ->
  _closed (after c s) = true /\
  written (after c s) = written s /\
  written (run cs (after c s)) = written s.
Proof.
  intros Ht Hlen.
  destruct (trigger_short_path c s Ht Hlen) as [s' [E [Hw [_ [_ Hc]]]]].
  unfold after. rewrite E. cbn [snd].
  destruct (closed_run cs s' Hc) as [_ Hrun].
  rewrite Hrun. auto.
Qed.

Lemma skipped_render_consumes_the_shot_witness :
  let s := after (Close env_all_fine) __init__ in
  _closed s = true /\
  written s = [] /\
  written (run [SetMove "F" 20 10; SetTurn "L" 90 30; Close env_all_fine;
                AtExit env_all_fine] s) = [].
Proof.
  apply (skipped_render_consumes_the_shot (Close env_all_fine) __init__); simpl; [exact I | lia].
Defined.

(** ** The commands as calls of the integrator *)

Lemma Rabs_direction_sign (first direction : string) (d : R) :
  Rabs (d * direction_sign first direction) = Rabs d.
Proof.
  unfold direction_sign. destruct (String.eqb direction first).
  - f_equal. lra.
  - replace (d * -1) with (- d) by lra. apply Rabs_Ropp.
Qed.

Lemma setMove_stopped (dir : string) (d sp : R) (s : Finch) :
  sp = 0 -> setMove dir d sp s = (Ok tt, s).
Proof.
  intros ->. unfold setMove. rewrite Rabs_R0.
  destruct (Rle_dec 0 0.0) as [_ | N]; [reflexivity | lra].
Qed.

Lemma setMove_advance (dir : string) (d sp : R) (s : Finch) :
  sp <> 0 ->
  let signed := d * direction_sign "F" dir in
  let vl := Rabs sp * (if Rge_dec signed 0 then 1 else -1) in
  setMove dir d sp s = _advance vl vl (Rabs d / Rabs sp) s.
Proof.
  intros Hsp signed vl. unfold setMove.
  pose proof (Rabs_pos_lt sp Hsp) as Hpos.
  destruct (Rle_dec (Rabs sp) 0.0) as [Hz | _]; [lra |].
  unfold bind, lift. rewrite truediv_ok by lra.
  fold (direction_sign "F" dir). rewrite Rabs_direction_sign. reflexivity.
Qed.

Lemma setTurn_stopped (dir : string) (deg dps : R) (s : Finch) :
  dps = 0 -> setTurn dir deg dps s = (Ok tt, s).
Proof.
  intros ->. unfold setTurn. rewrite Rabs_R0.
  destruct (Rle_dec 0 0.0) as [_ | N]; [reflexivity | lra].
Qed.

Lemma setTurn_advance (dir : string) (deg dps : R) (s : Finch) :
  dps <> 0 ->
  let signed := deg * direction_sign "L" dir in
  let omega := radians (Rabs dps) * (if Rge_dec signed 0.0 then 1.0 else -1.0) in
  let sp := 0.5 * Rabs omega * WHEELBASE_CM in
  let vl := if Rge_dec signed 0 then - sp else sp in
  let vr := if Rge_dec signed 0 then sp else - sp in
  setTurn dir deg dps s = _advance vl vr (Rabs (radians signed) / Rabs omega) s.
Proof.
  intros Hdps signed omega sp vl vr. unfold setTurn.
  pose proof (Rabs_pos_lt dps Hdps) as Hpos.
  destruct (Rle_dec (Rabs dps) 0.0) as [Hz | _]; [lra |].
  unfold bind, lift.
  fold (direction_sign "L" dir). fold signed. fold omega.
  rewrite truediv_ok; [reflexivity |].
  unfold omega. rewrite turn_rate_abs by exact Hpos.
  pose proof (radians_pos _ Hpos). lra.
Qed.

(** The duration [setTurn] computes is the angle over the angular speed. *)
Lemma turn_duration (signed dps : R) :
  dps <> 0 ->
  Rabs (radians signed) /
  Rabs (radians (Rabs dps) * (if Rge_dec signed 0.0 then 1.0 else -1.0)) =
  Rabs signed / Rabs dps.
Proof.
  intros Hdps. pose proof (Rabs_pos_lt dps Hdps) as Hpos.
  rewrite turn_rate_abs by exact Hpos.
  unfold radians. pose proof PI_RGT_0 as Hpi.
  rewrite Rabs_mult, (Rabs_pos_eq (PI / 180)) by lra.
  field. lra.
Qed.

(** ** The no-op law (C2) *)

Lemma setMove_computed (dir : string) (d sp : R) (s : Finch) :
  sp <> 0 ->
  setMove dir d sp s =
  (duration <- lift (setMove_duration dir d sp) ;;
   let vl := Rabs sp * (if Rge_dec (d * (if String.eqb dir "F" then 1 else -1)) 0
                        then 1 else -1) in
   _advance vl vl duration) s.
Proof.
  intros Hsp. unfold setMove, setMove_duration.
  pose proof (Rabs_pos_lt sp Hsp) as Hpos.
  destruct (Rle_dec (Rabs sp) 0.0) as [Hz | _]; [lra | reflexivity].
Qed.

Lemma setTurn_computed (dir : string) (deg dps : R) (s : Finch) :
  dps <> 0 ->
  setTurn dir deg dps s =
  (duration <- lift (setTurn_duration dir deg dps) ;;
   let degrees := deg * (if String.eqb dir "L" then 1 else -1) in
   let omega := radians (Rabs dps) * (if Rge_dec degrees 0.0 then 1.0 else -1.0) in
   let sp := 0.5 * Rabs omega * WHEELBASE_CM in
   _advance (if Rge_dec degrees 0 then - sp else sp)
            (if Rge_dec degrees 0 then sp else - sp) duration) s.
Proof.
  intros Hdps. unfold setTurn, setTurn_duration.
  pose proof (Rabs_pos_lt dps Hdps) as Hpos.
  destruct (Rle_dec (Rabs dps) 0.0) as [Hz | _]; [lra | reflexivity].
Qed.

Lemma degenerate_noop (c : Cmd) (s : Finch) :
  degenerate c -> exec c s = (Ok tt, s).
Proof.
  destruct c; simpl; try contradiction.
  - destruct duration as [d |]; intros H; [now apply advance_nonpositive | reflexivity].
  - intros [Hz | [dur [Hdur Hle]]]; [now apply setMove_stopped |].
    destruct (Req_dec_T speed_cm_s 0) as [Hz | Hnz]; [now apply setMove_stopped |].
    rewrite setMove_computed by exact Hnz.
    unfold bind, lift. rewrite Hdur. now apply advance_nonpositive.
  - intros [Hz | [dur [Hdur Hle]]]; [now apply setTurn_stopped |].
    destruct (Req_dec_T deg_per_s 0) as [Hz | Hnz]; [now apply setTurn_stopped |].
    rewrite setTurn_computed by exact Hnz.
    unfold bind, lift. rewrite Hdur. now apply advance_nonpositive.
Qed.

Lemma zero_distance_duration (dir : string) (sp : R) :
  sp <> 0 -> at_most_0 (setMove_duration dir 0 sp).
Proof.
  intros Hsp. pose proof (Rabs_pos_lt sp Hsp) as Hpos.
  exists (Rabs (0 * (if String.eqb dir "F" then 1 else -1)) / Rabs sp).
  split.
  - unfold setMove_duration. apply truediv_ok. lra.
  - rewrite Rmult_0_l, Rabs_R0. lra.
Qed.

(** C2.  A call of [wheels] without a duration or with a duration <= 0,
    and a call of [setMove] or [setTurn] with a speed of exactly 0 or in
    which the duration the call computes is <= 0, returns without raising
    and leaves the whole object, pose and path included, as it was.  (The
    computed duration is the result of the call's own division; a call
    whose division raises has computed none.) *)
Theorem noop_law (c : Cmd) (s : Finch) :
  degenerate c -> exec c s = (Ok tt, s).
Proof. exact (degenerate_noop c s). Qed.

Lemma noop_law_witness :
  degenerate (SetMove "F" 0 10) /\
  exec (SetMove "F" 0 10) __init__ = (Ok tt, __init__).
Proof.
  assert (H10 : 10 <> 0) by lra.
  assert (H : degenerate (SetMove "F" 0 10)).
  { simpl. right. exact (zero_distance_duration "F" 10 H10). }
  split; [exact H | apply (noop_law (SetMove "F" 0 10) __init__ H)].
Defined.

(** C2 as stated fails for a negative speed: [setMove] takes its absolute
    value, and [setMove("F", 10, -5)] drives the robot for 2 seconds. *)
Lemma negative_speed_moves :
  degenerate_stated (SetMove "F" 10 (-5)) /\
  exec (SetMove "F" 10 (-5)) __init__ <> (Ok tt, __init__).
Proof.
  split; [simpl; left; lra |].
  simpl exec. rewrite setMove_advance by lra.
  assert (Hdt : 0 < Rabs 10 / Rabs (-5)).
  { rewrite Rabs_pos_eq, Rabs_left by lra. replace (- -5) with 5 by lra. lra. }
  rewrite advance_positive by exact Hdt.
  intros E. apply (f_equal (fun r => List.length (_path (snd r)))) in E.
  cbn [snd _path __init__] in E.
  rewrite length_app, length_map, samples_length in E.
  pose proof (substeps_pos _ Hdt) as HN. cbn [List.length] in E. lia.
Qed.

(** ** Turning on the spot (C3) *)

Lemma pivot_substep (omega h : R) (p : Pose) :
  position (substep 0 omega h p) = position p.
Proof.
  unfold substep, turning_radius, position.
  destruct (Rlt_dec (Rabs omega) 1e-9) as [_ | _].
  - cbn [x y]. f_equal; ring.
  - destruct (Rgt_dec (Rabs 0) 1e-12) as [Hv | _].
    + rewrite Rabs_R0 in Hv. lra.
    + cbn [x y]. f_equal; ring.
Qed.

Lemma pivot_samples (n : nat) (omega h : R) :
  forall p : Pose,
    map position (samples n (substep 0 omega h) p) = repeat (position p) n /\
    position (iterate n (substep 0 omega h) p) = position p.
Proof.
  induction n as [| n IH]; intros p; [split; reflexivity |].
  simpl samples. simpl iterate. simpl map. simpl repeat.
  destruct (IH (substep 0 omega h p)) as [Hs Hi].
  rewrite Hs, Hi, pivot_substep. split; reflexivity.
Qed.

(** Opposite wheel speeds for a positive duration: the robot stays where
    it is and every appended point is that place. *)
Lemma advance_pivot (sp dt : R) (s : Finch) :
  0 < dt ->
  exists s',
    _advance (- sp) sp dt s = (Ok tt, s') /\
    position (_pose s') = position (_pose s) /\
    _path s' = _path s ++ repeat (position (_pose s)) (Z.to_nat (substeps dt)).
Proof.
  intros Hdt. eexists. split; [apply advance_positive; exact Hdt |].
  cbn [_pose _path].
  replace (0.5 * (- sp + sp)) with 0 by lra.
  destruct (pivot_samples (Z.to_nat (substeps dt)) ((sp - - sp) / 10)
              (dt / IZR (substeps dt)) (_pose s)) as [Hs Hi].
  rewrite Hs, Hi. split; reflexivity.
Qed.

Lemma setTurn_wheels (dir : string) (deg dps : R) (s : Finch) :
  0 < deg -> 0 < dps ->
  let omega := radians dps * direction_sign "L" dir in
  let sp := 0.5 * Rabs omega * WHEELBASE_CM in
  let vl := if String.eqb dir "L" then - sp else sp in
  let vr := if String.eqb dir "L" then sp else - sp in
  let duration := Rabs (radians deg) / Rabs omega in
  0 < duration /\ setTurn dir deg dps s = _advance vl vr duration s.
Proof.
  intros Hdeg Hdps omega sp vl vr duration.
  pose proof (radians_pos _ Hdps) as Hrate.
  pose proof (radians_pos _ Hdeg) as Hangle.
  assert (Homega : Rabs omega = radians dps).
  { unfold omega, direction_sign. destruct (String.eqb dir "L").
    - rewrite Rabs_pos_eq by lra. lra.
    - rewrite Rabs_left by lra. lra. }
  assert (Hdur : duration = radians deg / radians dps).
  { unfold duration. rewrite Homega, (Rabs_pos_eq (radians deg)) by lra. reflexivity. }
  split.
  { rewrite Hdur. now apply Rdiv_lt_0_compat. }
  rewrite setTurn_advance by lra.
  assert (Hsp : sp = 0.5 * radians dps * WHEELBASE_CM) by (unfold sp; now rewrite Homega).
  rewrite (Rabs_pos_eq dps) by lra.
  rewrite turn_rate_abs by exact Hdps.
  unfold vl, vr, direction_sign. rewrite Hdur, Hsp.
  destruct (String.eqb dir "L").
  - destruct (Rge_dec (deg * 1) 0) as [_ | N]; [| lra].
    replace (deg * 1) with deg by lra.
    rewrite (Rabs_pos_eq (radians deg)) by lra. reflexivity.
  - destruct (Rge_dec (deg * -1) 0) as [N | _]; [lra |].
    replace (deg * -1) with (- deg) by lra.
    replace (radians (- deg)) with (- radians deg) by (unfold radians; lra).
    rewrite Rabs_Ropp, (Rabs_pos_eq (radians deg)) by lra. reflexivity.
Qed.

(** C3.  For degrees > 0 and an angular speed > 0, [setTurn] is a call
    of the integrator with a positive duration and wheel speeds -s and +s
    for a left turn, +s and -s for a right turn (as for any direction that
    is not "L"), where s = 0.5 * |omega| * wheelbase and omega is the
    angular speed in rad/s signed by the direction.  The call returns, the
    position (x, y) of the pose after it is the position before it, and
    every point it appends to the path (at least one) is that position. *)
Theorem turn_pivots_in_place (dir : string) (deg dps : R) (s : Finch) :
  0 < deg -> 0 < dps ->
  let omega := radians dps * direction_sign "L" dir in
  let sp := 0.5 * Rabs omega * WHEELBASE_CM in
  let vl := if String.eqb dir "L" then - sp else sp in
  let vr := if String.eqb dir "L" then sp else - sp in
  let duration := Rabs (radians deg) / Rabs omega in
  0 < duration /\
  setTurn dir deg dps s = _advance vl vr duration s /\
  exists s' n,
    setTurn dir deg dps s = (Ok tt, s') /\
    (x (_pose s'), y (_pose s')) = (x (_pose s), y (_pose s)) /\
    _path s' = _path s ++ repeat (x (_pose s), y (_pose s)) n /\
    (1 <= n)%nat.
Proof.
  intros Hdeg Hdps omega sp vl vr duration.
  destruct (setTurn_wheels dir deg dps s Hdeg Hdps) as [Hdur Hturn].
  fold omega sp vl vr duration in Hdur, Hturn.
  split; [exact Hdur | split; [exact Hturn |]].
  rewrite Hturn.
  assert (Hpivot : exists s',
             _advance vl vr duration s = (Ok tt, s') /\
             position (_pose s') = position (_pose s) /\
             _path s' = _path s ++ repeat (position (_pose s)) (Z.to_nat (substeps duration))).
  { unfold vl, vr. destruct (String.eqb dir "L").
    - apply advance_pivot, Hdur.
    - pose proof (advance_pivot (- sp) duration s Hdur) as H.
      rewrite Ropp_involutive in H. exact H. }
  destruct Hpivot as [s' [E [Hpos Hpath]]].
  exists s', (Z.to_nat (substeps duration)).
  repeat split; try assumption.
  pose proof (substeps_pos duration Hdur). lia.
Qed.

Lemma turn_pivots_in_place_witness :
  0 < 90 /\ 0 < 30 /\
  exists s' n,
    setTurn "L" 90 30 __init__ = (Ok tt, s') /\
    (x (_pose s'), y (_pose s')) = (x (_pose __init__), y (_pose __init__)) /\
    _path s' = _path __init__ ++ repeat (x (_pose __init__), y (_pose __init__)) n /\
    (1 <= n)%nat.
Proof.
  assert (H90 : 0 < 90) by lra.
  assert (H30 : 0 < 30) by lra.
  exact (conj H90 (conj H30
           (proj2 (proj2 (turn_pivots_in_place "L" 90 30 __init__ H90 H30))))).
Defined.

(** ** Closed forms of the loop *)

Lemma straight_iterate (v omega h : R) :
  Rabs omega < 1e-9 ->
  forall (n : nat) (p : Pose),
    iterate n (substep v omega h) p =
    mkPose (x p + INR n * (v * h * cos (th p)))
           (y p + INR n * (v * h * sin (th p)))
           (th p).
Proof.
  intros Hs. induction n as [| n IH]; intros p.
  - simpl. destruct p as [px py pth]. cbn [x y th]. f_equal; ring.
  - cbn [iterate]. rewrite IH. rewrite S_INR.
    unfold substep. destruct (Rlt_dec (Rabs omega) 1e-9) as [_ | N]; [| contradiction].
    cbn [x y th]. f_equal; ring.
Qed.

Lemma steps_times_step (dt : R) :
  0 < dt -> INR (Z.to_nat (substeps dt)) * (dt / IZR (substeps dt)) = dt.
Proof.
  intros Hdt. pose proof (substeps_pos dt Hdt) as HN.
  pose proof (substeps_IZR_pos dt Hdt) as HR.
  rewrite INR_IZR_INZ, Z2Nat.id by lia. field. lra.
Qed.

Lemma arc_iterate_heading (v omega h : R) :
  ~ Rabs omega < 1e-9 ->
  forall (n : nat) (p : Pose),
    th (iterate n (substep v omega h) p) = th p + INR n * (omega * h).
Proof.
  intros Ha. induction n as [| n IH]; intros p.
  - simpl. ring.
  - cbn [iterate]. rewrite IH, S_INR. unfold substep.
    destruct (Rlt_dec (Rabs omega) 1e-9) as [N | _]; [contradiction |].
    cbn [th]. ring.
Qed.

(** ** The heading after a turn *)

(** At 1e-9 rad/s or faster the heading changes by the angle asked for,
    to the left or to the right; below that the integrator takes its
    straight branch and the heading stays. *)
Lemma setTurn_heading (dir : string) (deg dps : R) (s : Finch) :
  0 < deg -> 0 < dps ->
  exists s',
    setTurn dir deg dps s = (Ok tt, s') /\
    th (_pose s') =
    if Rlt_dec (radians dps) 1e-9 then th (_pose s)
    else th (_pose s) + direction_sign "L" dir * radians deg.
Proof.
  intros Hdeg Hdps.
  destruct (setTurn_wheels dir deg dps s Hdeg Hdps) as [Hdur ->].
  pose proof (radians_pos _ Hdps) as Hrate.
  pose proof (radians_pos _ Hdeg) as Hangle.
  set (omega := radians dps * direction_sign "L" dir) in *.
  assert (Homega : Rabs omega = radians dps).
  { unfold omega, direction_sign. destruct (String.eqb dir "L").
    - rewrite Rabs_pos_eq by lra. lra.
    - rewrite Rabs_left by lra. lra. }
  rewrite Homega in *. rewrite (Rabs_pos_eq (radians deg)) in * by lra.
  set (dt := radians deg / radians dps) in *.
  set (sp := 0.5 * radians dps * WHEELBASE_CM).
  set (vl := if String.eqb dir "L" then - sp else sp).
  set (vr := if String.eqb dir "L" then sp else - sp).
  assert (Hrot : (vr - vl) / 10 = omega).
  { unfold vl, vr, sp, omega, direction_sign, WHEELBASE_CM.
    destruct (String.eqb dir "L"); lra. }
  eexists. split; [apply advance_positive; exact Hdur |].
  cbn [_pose]. rewrite Hrot.
  destruct (Rlt_dec (radians dps) 1e-9) as [Hslow | Hfast].
  - rewrite straight_iterate by (rewrite Homega; exact Hslow). reflexivity.
  - rewrite arc_iterate_heading by (rewrite Homega; exact Hfast).
    pose proof (steps_times_step dt Hdur) as Hsum.
    replace (INR (Z.to_nat (substeps dt)) * (omega * (dt / IZR (substeps dt))))
      with (omega * (INR (Z.to_nat (substeps dt)) * (dt / IZR (substeps dt)))) by ring.
    rewrite Hsum. unfold omega, dt. field. lra.
Qed.

(** ** Straight moves (C4) *)

(** Both wheels at speed [u] for a positive duration: the robot travels
    [u * dt] along its heading and keeps the heading. *)
Lemma advance_straight (u dt : R) (s : Finch) :
  0 < dt ->
  exists s',
    _advance u u dt s = (Ok tt, s') /\
    _pose s' = mkPose (x (_pose s) + u * dt * cos (th (_pose s)))
                      (y (_pose s) + u * dt * sin (th (_pose s)))
                      (th (_pose s)).
Proof.
  intros Hdt. eexists. split; [apply advance_positive; exact Hdt |].
  cbn [_pose].
  rewrite straight_iterate.
  - pose proof (steps_times_step dt Hdt) as Hsum.
    set (n := INR (Z.to_nat (substeps dt))) in *.
    set (h := dt / IZR (substeps dt)) in *.
    replace (0.5 * (u + u)) with u by lra.
    f_equal.
    + replace (n * (u * h * cos (th (_pose s))))
        with (u * (n * h) * cos (th (_pose s))) by ring.
      now rewrite Hsum.
    + replace (n * (u * h * sin (th (_pose s))))
        with (u * (n * h) * sin (th (_pose s))) by ring.
      now rewrite Hsum.
  - replace ((u - u) / 10) with 0 by lra. rewrite Rabs_R0. lra.
Qed.

(** A move of a positive distance [d] at speed [sp], forward ([sgn] = 1)
    or backward ([sgn] = -1), as a displacement of the pose. *)
Lemma setMove_displaces (dir : string) (d sp : R) (s : Finch) :
  0 < d -> 0 < sp ->
  exists s',
    setMove dir d sp s = (Ok tt, s') /\
    _pose s' =
    mkPose (x (_pose s) + direction_sign "F" dir * d * cos (th (_pose s)))
           (y (_pose s) + direction_sign "F" dir * d * sin (th (_pose s)))
           (th (_pose s)).
Proof.
  intros Hd Hsp.
  rewrite setMove_advance by lra.
  rewrite (Rabs_pos_eq d), (Rabs_pos_eq sp) by lra.
  assert (Hdt : 0 < d / sp) by now apply Rdiv_lt_0_compat.
  set (u := sp * (if Rge_dec (d * direction_sign "F" dir) 0 then 1 else -1)).
  destruct (advance_straight u (d / sp) s Hdt) as [s' [E Hpose]].
  exists s'. split; [exact E |]. rewrite Hpose.
  assert (Hu : u * (d / sp) = direction_sign "F" dir * d).
  { unfold u, direction_sign. destruct (String.eqb dir "F").
    - destruct (Rge_dec (d * 1) 0) as [_ | N]; [field; lra | lra].
    - destruct (Rge_dec (d * -1) 0) as [N | _]; [lra | field; lra]. }
  rewrite Hu. reflexivity.
Qed.

Lemma setMove_zero_distance (dir : string) (sp : R) (s : Finch) :
  setMove dir 0 sp s = (Ok tt, s).
Proof.
  destruct (Req_dec_T sp 0) as [Hz | Hnz]; [now apply setMove_stopped |].
  apply (degenerate_noop (SetMove dir 0 sp) s). simpl. right.
  now apply zero_distance_duration.
Qed.

(** C4.  For a distance d >= 0 and a speed s > 0, [setMove] forward by d
    and then backward by d both return and bring the pose back to exactly
    the (x, y, th) it started from (in exact arithmetic); the forward move
    takes the robot d along its heading, and each of the two moves leaves
    the heading th as it was. *)
Theorem move_round_trip (d sp : R) (s : Finch) :
  0 <= d -> 0 < sp ->
  exists s1 s2,
    setMove "F" d sp s = (Ok tt, s1) /\
    setMove "B" d sp s1 = (Ok tt, s2) /\
    _pose s2 = _pose s /\
    x (_pose s1) = x (_pose s) + d * cos (th (_pose s)) /\
    y (_pose s1) = y (_pose s) + d * sin (th (_pose s)) /\
    th (_pose s1) = th (_pose s) /\
    th (_pose s2) = th (_pose s1).
Proof.
  intros Hd Hsp.
  destruct (Req_dec_T d 0) as [-> | Hnz].
  - exists s, s. rewrite !setMove_zero_distance.
    repeat split; try reflexivity; lra.
  - assert (Hpos : 0 < d) by lra.
    destruct (setMove_displaces "F" d sp s Hpos Hsp) as [s1 [E1 H1]].
    destruct (setMove_displaces "B" d sp s1 Hpos Hsp) as [s2 [E2 H2]].
    exists s1, s2.
    unfold direction_sign in H1, H2. simpl String.eqb in H1, H2.
    rewrite H2, H1. cbn [x y th].
    split; [exact E1 | split; [exact E2 |]].
    destruct (_pose s) as [px py pth]. cbn [x y th].
    repeat split; try lra. f_equal; ring.
Qed.

Lemma move_round_trip_witness :
  0 <= 20 /\ 0 < 10 /\
  exists s1 s2,
    setMove "F" 20 10 __init__ = (Ok tt, s1) /\
    setMove "B" 20 10 s1 = (Ok tt, s2) /\
    _pose s2 = _pose __init__ /\
    x (_pose s1) = x (_pose __init__) + 20 * cos (th (_pose __init__)) /\
    y (_pose s1) = y (_pose __init__) + 20 * sin (th (_pose __init__)) /\
    th (_pose s1) = th (_pose __init__) /\
    th (_pose s2) = th (_pose s1).
Proof.
  assert (H20 : 0 <= 20) by lra.
  assert (H10 : 0 < 10) by lra.
  exact (conj H20 (conj H10 (move_round_trip 20 10 __init__ H20 H10))).
Defined.

(** ** The bounding box (C5) *)

Lemma fold_Rmin_is_min (t : list R) :
  forall a, is_min (fold_left Rmin t a) (a :: t).
Proof.
  induction t as [| b t IH]; intros a.
  - simpl. split; [now left | intros z [<- | []]; lra].
  - simpl fold_left. destruct (IH (Rmin a b)) as [Hin Hlb]. split.
    + destruct Hin as [E | Hin].
      * rewrite <- E. unfold Rmin. destruct (Rle_dec a b); [now left | right; now left].
      * right. now right.
    + intros z Hz.
      assert (Hm : fold_left Rmin t (Rmin a b) <= Rmin a b) by (apply Hlb; now left).
      destruct Hz as [<- | [<- | Hz]].
      * pose proof (Rmin_l a b). lra.
      * pose proof (Rmin_r a b). lra.
      * apply Hlb. now right.
Qed.

Lemma fold_Rmax_is_max (t : list R) :
  forall a, is_max (fold_left Rmax t a) (a :: t).
Proof.
  induction t as [| b t IH]; intros a.
  - simpl. split; [now left | intros z [<- | []]; lra].
  - simpl fold_left. destruct (IH (Rmax a b)) as [Hin Hub]. split.
    + destruct Hin as [E | Hin].
      * rewrite <- E. unfold Rmax. destruct (Rle_dec a b); [right; now left | now left].
      * right. now right.
    + intros z Hz.
      assert (Hm : Rmax a b <= fold_left Rmax t (Rmax a b)) by (apply Hub; now left).
      destruct Hz as [<- | [<- | Hz]].
      * pose proof (Rmax_l a b). lra.
      * pose proof (Rmax_r a b). lra.
      * apply Hub. now right.
Qed.

Lemma extent_pos (lo hi : R) : 0 < extent lo hi.
Proof.
  unfold extent. pose proof (Rmax_l 1e-6 (hi - lo)). lra.
Qed.

Lemma bounds_nonempty (s : Finch) :
  _path s <> [] ->
  exists minx maxx miny maxy,
    is_min minx (map fst (_path s)) /\ is_max maxx (map fst (_path s)) /\
    is_min miny (map snd (_path s)) /\ is_max maxy (map snd (_path s)) /\
    _bounds s = (Ok (view_of minx maxx miny maxy), s).
Proof.
  intros Hne. unfold _bounds. run_monad.
  destruct (_path s) as [| p t]; [contradiction |].
  cbn [unzip_path map pymin pymax].
  exists (fold_left Rmin (map fst t) (fst p)), (fold_left Rmax (map fst t) (fst p)),
         (fold_left Rmin (map snd t) (snd p)), (fold_left Rmax (map snd t) (snd p)).
  repeat split; try apply fold_Rmin_is_min; try apply fold_Rmax_is_max.
  unfold view_of, extent. do 2 f_equal.
  repeat (f_equal; try lra).
Qed.

(** C5.  On a non-empty path [_bounds] returns the view rectangle built
    from the least and greatest x and the least and greatest y over all
    path points: each axis padded by 10% of its extent on both sides,
    where the extent is the span and at least [1e-6]; the width and the
    height it returns are strictly positive. *)
Theorem bounds_view (s : Finch) :
  _path s <> [] ->
  exists minx maxx miny maxy view_min_x view_min_y view_w view_h,
    is_min minx (map fst (_path s)) /\ is_max maxx (map fst (_path s)) /\
    is_min miny (map snd (_path s)) /\ is_max maxy (map snd (_path s)) /\
    _bounds s = (Ok (view_min_x, view_min_y, view_w, view_h), s) /\
    view_min_x = minx - 0.1 * Rmax 1e-6 (maxx - minx) /\
    view_min_y = miny - 0.1 * Rmax 1e-6 (maxy - miny) /\
    view_w = Rmax 1e-6 (maxx - minx) + 2 * (0.1 * Rmax 1e-6 (maxx - minx)) /\
    view_h = Rmax 1e-6 (maxy - miny) + 2 * (0.1 * Rmax 1e-6 (maxy - miny)) /\
    0 < view_w /\ 0 < view_h.
Proof.
  intros Hne.
  destruct (bounds_nonempty s Hne) as [minx [maxx [miny [maxy [H1 [H2 [H3 [H4 E]]]]]]]].
  exists minx, maxx, miny, maxy.
  do 4 eexists. repeat (split; [eassumption || reflexivity |]).
  pose proof (extent_pos minx maxx). pose proof (extent_pos miny maxy).
  unfold extent in *. split; lra.
Qed.

Lemma bounds_view_witness :
  _path __init__ <> [] /\
  exists minx maxx miny maxy view_min_x view_min_y view_w view_h,
    is_min minx (map fst (_path __init__)) /\ is_max maxx (map fst (_path __init__)) /\
    is_min miny (map snd (_path __init__)) /\ is_max maxy (map snd (_path __init__)) /\
    _bounds __init__ = (Ok (view_min_x, view_min_y, view_w, view_h), __init__) /\
    view_min_x = minx - 0.1 * Rmax 1e-6 (maxx - minx) /\
    view_min_y = miny - 0.1 * Rmax 1e-6 (maxy - miny) /\
    view_w = Rmax 1e-6 (maxx - minx) + 2 * (0.1 * Rmax 1e-6 (maxx - minx)) /\
    view_h = Rmax 1e-6 (maxy - miny) + 2 * (0.1 * Rmax 1e-6 (maxy - miny)) /\
    0 < view_w /\ 0 < view_h.
Proof.
  assert (Hne : _path __init__ <> []) by (simpl; discriminate).
  exact (conj Hne (bounds_view __init__ Hne)).
Defined.

(** ** A render that goes through *)

Lemma aspect_ok (w h : R) (s : Finch) : exists r, aspect w h s = (Ok r, s).
Proof.
  unfold aspect. destruct (Rgt_dec w 0) as [Hw | _].
  - unfold lift. rewrite truediv_ok by lra. eauto.
  - unfold ret. eauto.
Qed.

Lemma to_svg_string_ok (s : Finch) :
  _path s <> [] -> exists doc, _to_svg_string s = (Ok doc, s).
Proof.
  intros Hne.
  destruct (bounds_nonempty s Hne) as [minx [maxx [miny [maxy [_ [_ [_ [_ E]]]]]]]].
  unfold _to_svg_string, bind at 1. rewrite E. unfold view_of.
  unfold bind at 1, get at 1. unfold bind.
  destruct (aspect_ok (extent minx maxx + 2 * (0.1 * extent minx maxx))
              (extent miny maxy + 2 * (0.1 * extent miny maxy)) s) as [r ->].
  unfold ret. eauto.
Qed.

Lemma png_bytes_ok (env : Env) (s : Finch) :
  _path s <> [] -> pil env = Some true ->
  exists bmp, _png_bytes env s = (Ok (Some bmp), s).
Proof.
  intros Hne Hpil.
  destruct (bounds_nonempty s Hne) as [minx [maxx [miny [maxy [_ [_ [_ [_ E]]]]]]]].
  unfold _png_bytes. rewrite Hpil. unfold bind at 1. rewrite E. unfold view_of.
  pose proof (extent_pos minx maxx) as Hx. pose proof (extent_pos miny maxy) as Hy.
  set (w := extent minx maxx + 2 * (0.1 * extent minx maxx)).
  set (h := extent miny maxy + 2 * (0.1 * extent miny maxy)).
  unfold bind at 1. destruct (aspect_ok w h s) as [r ->].
  destruct (Rgt_dec w 0) as [_ | N]; [| unfold w in N; lra].
  destruct (Rgt_dec h 0) as [_ | N]; [| unfold h in N; lra].
  unfold bind, lift, get, ret.
  rewrite !truediv_ok by (unfold w, h; lra).
  eauto.
Qed.

(** With the flag down, a path of two points or more, a writable SVG file
    and a working imaging library, a trigger opens the SVG file and then
    the PNG file, once each. *)
Lemma close_renders (env : Env) (s : Finch) :
  _closed s = false -> (2 <= List.length (_path s))%nat ->
  svg_writable env = true -> pil env = Some true ->
  written (after (Close env) s) =
  written s ++ [mkAttempt SvgFile true; mkAttempt PngFile (png_writable env)].
Proof.
  intros Hc Hlen Hsvg Hpil.
  unfold after. simpl exec. unfold close, _maybe_render.
  unfold bind at 1, get at 1. rewrite Hc.
  unfold bind, set_closed, get. cbn [_pose _path _closed written].
  destruct (Nat.ltb_spec (List.length (_path s)) 2) as [Hshort | _]; [lia |].
  set (s1 := mkFinch (_pose s) (_path s) true (written s)).
  assert (Hne : _path s1 <> []).
  { unfold s1. cbn [_path]. intros E. rewrite E in Hlen. simpl in Hlen. lia. }
  unfold try_pass at 1, _write_svg_png, bind at 1.
  destruct (to_svg_string_ok s1 Hne) as [doc ->].
  unfold bind at 1, open_write at 1. rewrite Hsvg.
  set (s2 := mkFinch (_pose s1) (_path s1) (_closed s1) (written s1 ++ [mkAttempt SvgFile true])).
  unfold try_pass, bind.
  destruct (png_bytes_ok env s2 Hne Hpil) as [bmp ->].
  unfold open_write. unfold s2, s1. cbn [_pose _path _closed written].
  rewrite <- app_assoc.
  destruct (png_writable env); reflexivity.
Qed.

(** The scenario of the specification, closed twice: one SVG and one PNG. *)
Example move_turn_close_twice :
  written (run [SetMove "F" 20 10; SetTurn "L" 90 30;
                Close env_all_fine; Close env_all_fine] __init__) =
  [mkAttempt SvgFile true; mkAttempt PngFile true].
Proof.
  rewrite !run_cons. simpl run.
  set (s1 := after (SetMove "F" 20 10) __init__).
  set (s2 := after (SetTurn "L" 90 30) s1).
  set (s3 := after (Close env_all_fine) s2).
  assert (H1 : _closed s1 = false /\ written s1 = [] /\ (2 <= List.length (_path s1))%nat).
  { unfold s1, after. simpl exec. rewrite setMove_advance by lra.
    assert (Hdt : 0 < Rabs 20 / Rabs 10) by (rewrite !Rabs_pos_eq by lra; lra).
    rewrite advance_positive by exact Hdt. cbn [snd _closed written _path __init__].
    rewrite length_app, length_map, samples_length.
    pose proof (substeps_pos _ Hdt). cbn [List.length]. repeat split; lia. }
  destruct H1 as [Hc1 [Hw1 Hl1]].
  destruct (after_motor (SetTurn "L" 90 30) s1 (fun H => H)) as [poses [_ [Hp [Hc2 Hw2]]]].
  fold s2 in Hp, Hc2, Hw2.
  destruct (after_trigger (Close env_all_fine) s2 I) as [_ [_ [Hc3 _]]].
  fold s3 in Hc3.
  destruct (closed_stays (Close env_all_fine) s3 Hc3) as [_ ->].
  unfold s3. rewrite close_renders; try reflexivity.
  - rewrite Hw2, Hw1. reflexivity.
  - congruence.
  - rewrite Hp, length_app. lia.
Qed.

(** ** The scenario of the specification *)

(** A fresh robot moves forward 20 cm at 10 cm/s and turns left by 90
    degrees at 30 deg/s: it is at (20, 0) before and after the turn and
    ends up heading along +Y. *)
Example move_then_turn :
  exists s1 s2,
    setMove "F" 20 10 __init__ = (Ok tt, s1) /\
    setTurn "L" 90 30 s1 = (Ok tt, s2) /\
    _pose s1 = mkPose 20 0 0 /\
    _pose s2 = mkPose 20 0 (PI / 2).
Proof.
  assert (H20 : 0 < 20) by lra. assert (H10 : 0 < 10) by lra.
  assert (H90 : 0 < 90) by lra. assert (H30 : 0 < 30) by lra.
  destruct (setMove_displaces "F" 20 10 __init__ H20 H10) as [s1 [E1 H1]].
  assert (Hp1 : _pose s1 = mkPose 20 0 0).
  { rewrite H1. unfold __init__, direction_sign. cbn [_pose x y th String.eqb Ascii.eqb Bool.eqb].
    replace 0.0 with 0 by lra. rewrite cos_0, sin_0. f_equal; lra. }
  destruct (setTurn_heading "L" 90 30 s1 H90 H30) as [s2 [E2 Hth]].
  destruct (setTurn_wheels "L" 90 30 s1 H90 H30) as [Hdur Hw].
  exists s1, s2. split; [exact E1 | split; [exact E2 | split; [exact Hp1 |]]].
  assert (Hpos : position (_pose s2) = position (_pose s1)).
  { cbv zeta in Hw. cbn [String.eqb Ascii.eqb Bool.eqb] in Hw.
    match type of Hw with
    | _ = _advance (- ?sp) ?sp ?dt _ =>
        destruct (advance_pivot sp dt s1 Hdur) as [s2' [E2' [Hp _]]]
    end.
    rewrite Hw, E2' in E2. injection E2 as <-. exact Hp. }
  destruct (Rlt_dec (radians 30) 1e-9) as [Hslow | _].
  { unfold radians in Hslow. pose proof PI2_1. lra. }
  rewrite Hp1 in Hth, Hpos. unfold position in Hpos. cbn [x y th] in Hth, Hpos.
  injection Hpos as Hx Hy.
  destruct (_pose s2) as [px py pth]. cbn [x y th] in *. subst px py pth.
  f_equal. unfold direction_sign, radians. cbn [String.eqb Ascii.eqb Bool.eqb]. lra.
Qed.

(** * Further properties of the code *)

(** ** The integrator is exact: substeps only add path points *)

Lemma substep_zero (v omega : R) (p : Pose) : substep v omega 0 p = p.
Proof.
  unfold substep. destruct p as [px py pth]. cbn [x y th].
  destruct (Rlt_dec (Rabs omega) 1e-9) as [_ | _].
  - f_equal; ring.
  - replace (pth + omega * 0) with pth by ring. f_equal; ring.
Qed.

Lemma substep_add (v omega h1 h2 : R) (p : Pose) :
  substep v omega h2 (substep v omega h1 p) = substep v omega (h1 + h2) p.
Proof.
  unfold substep.
  destruct (Rlt_dec (Rabs omega) 1e-9) as [_ | _]; cbn [x y th].
  - f_equal; ring.
  - replace (th p + omega * h1 + omega * h2) with (th p + omega * (h1 + h2)) by ring.
    f_equal; ring.
Qed.

Lemma iterate_substep (v omega h : R) (n : nat) :
  forall p : Pose, iterate n (substep v omega h) p = substep v omega (INR n * h) p.
Proof.
  induction n as [| n IH]; intros p.
  - simpl. rewrite Rmult_0_l. symmetry. apply substep_zero.
  - cbn [iterate]. rewrite IH, substep_add, S_INR.
    f_equal. ring.
Qed.

Lemma samples_iterate (f : Pose -> Pose) (n : nat) :
  forall p : Pose, samples n f p = map (fun k => iterate (S k) f p) (seq 0 n).
Proof.
  induction n as [| n IH]; intros p; [reflexivity |].
  cbn [samples seq map iterate]. f_equal.
  rewrite IH, <- seq_shift, map_map. reflexivity.
Qed.

Lemma samples_substep (v omega h : R) (n : nat) (p : Pose) :
  samples n (substep v omega h) p =
  map (fun k => substep v omega (INR (S k) * h) p) (seq 0 n).
Proof.
  rewrite samples_iterate. apply map_ext. intros k. apply iterate_substep.
Qed.

Lemma advance_closed_form (vl vr dt : R) (s : Finch) :
  0 < dt ->
  let v := (vl + vr) / 2 in
  let omega := (vr - vl) / 10 in
  let N := Z.to_nat (substeps dt) in
  let h := dt / IZR (substeps dt) in
  _advance vl vr dt s =
  (Ok tt,
   mkFinch (substep v omega dt (_pose s))
           (_path s ++
            map (fun k => position (substep v omega (INR (S k) * h) (_pose s))) (seq 0 N))
           (_closed s) (written s)).
Proof.
  intros Hdt v omega N h.
  rewrite (advance_positive vl vr dt s Hdt).
  replace (0.5 * (vl + vr)) with v by (unfold v; lra).
  fold omega. fold N. fold h.
  rewrite iterate_substep, samples_substep, map_map.
  unfold N, h. rewrite (steps_times_step dt Hdt). reflexivity.
Qed.

(** The pose after [_advance] is the pose of one exact step over the whole
    duration, whatever the number of substeps, and the k-th point appended
    to the path is the exact position at time k * h. *)
Theorem advance_exact (vl vr dt : R) (s : Finch) :
  0 < dt ->
  let v := (vl + vr) / 2 in
  let omega := (vr - vl) / 10 in
  let N := Z.to_nat (substeps dt) in
  let h := dt / IZR (substeps dt) in
  exists s',
    _advance vl vr dt s = (Ok tt, s') /\
    _pose s' = substep v omega dt (_pose s) /\
    _path s' =
    _path s ++ map (fun k => position (substep v omega (INR (S k) * h) (_pose s))) (seq 0 N).
Proof.
  intros Hdt v omega N h. eexists. split; [apply advance_closed_form; exact Hdt |].
  split; reflexivity.
Qed.

Lemma advance_exact_witness :
  0 < 1 /\
  exists s',
    _advance 3 5 1 __init__ = (Ok tt, s') /\
    _pose s' = substep ((3 + 5) / 2) ((5 - 3) / 10) 1 (_pose __init__) /\
    _path s' =
    _path __init__ ++
    map (fun k => position (substep ((3 + 5) / 2) ((5 - 3) / 10)
                              (INR (S k) * (1 / IZR (substeps 1))) (_pose __init__)))
        (seq 0 (Z.to_nat (substeps 1))).
Proof.
  assert (H : 0 < 1) by lra.
  exact (conj H (advance_exact 3 5 1 __init__ H)).
Defined.

(** ** Durations add up, and reversed wheels undo a motion *)

Lemma wheels_pose (l r d : R) (s : Finch) :
  0 <= d ->
  _pose (after (Wheels l r (Some d)) s) = substep ((l + r) / 2) ((r - l) / 10) d (_pose s).
Proof.
  intros Hd. unfold after. simpl exec.
  destruct (Req_dec_T d 0) as [-> | Hnz].
  - rewrite advance_nonpositive by lra. rewrite substep_zero. reflexivity.
  - rewrite advance_closed_form by lra. reflexivity.
Qed.

(** Driving the same wheel speeds for [d1] and then for [d2] seconds leaves
    the robot in the pose that driving them for [d1 + d2] seconds does. *)
Theorem wheels_durations_add (l r d1 d2 : R) (s : Finch) :
  0 <= d1 -> 0 <= d2 ->
  _pose (after (Wheels l r (Some d2)) (after (Wheels l r (Some d1)) s)) =
  _pose (after (Wheels l r (Some (d1 + d2))) s).
Proof.
  intros H1 H2.
  rewrite !wheels_pose by lra. apply substep_add.
Qed.

Lemma wheels_durations_add_witness :
  0 <= 1 /\ 0 <= 2 /\
  _pose (after (Wheels 3 5 (Some 2)) (after (Wheels 3 5 (Some 1)) __init__)) =
  _pose (after (Wheels 3 5 (Some (1 + 2))) __init__).
Proof.
  assert (H1 : 0 <= 1) by lra. assert (H2 : 0 <= 2) by lra.
  exact (conj H1 (conj H2 (wheels_durations_add 3 5 1 2 __init__ H1 H2))).
Defined.

Lemma turning_radius_opp (v omega : R) :
  omega <> 0 -> turning_radius (- v) (- omega) = turning_radius v omega.
Proof.
  intros Hw. unfold turning_radius. rewrite Rabs_Ropp.
  destruct (Rgt_dec (Rabs v) 1e-12); [field; exact Hw | reflexivity].
Qed.

Lemma substep_reverse (v omega h : R) (p : Pose) :
  substep (- v) (- omega) h (substep v omega h p) = p.
Proof.
  unfold substep. rewrite Rabs_Ropp.
  destruct (Rlt_dec (Rabs omega) 1e-9) as [_ | Ha]; destruct p as [px py pth]; cbn [x y th].
  - f_equal; ring.
  - rewrite turning_radius_opp by (apply big_omega_nonzero; exact Ha).
    replace (pth + omega * h + - omega * h) with pth by ring.
    f_equal; ring.
Qed.

Lemma reversed_wheels_pose (l r d : R) (s : Finch) :
  _pose (after (Wheels (- l) (- r) (Some d)) (after (Wheels l r (Some d)) s)) = _pose s.
Proof.
  destruct (Rle_dec d 0) as [Hle | Hgt].
  - unfold after. simpl exec. rewrite !advance_nonpositive by exact Hle. reflexivity.
  - rewrite !wheels_pose by lra.
    replace ((- l + - r) / 2) with (- ((l + r) / 2)) by lra.
    replace ((- r - - l) / 10) with (- ((r - l) / 10)) by lra.
    apply substep_reverse.
Qed.

(** Driving the wheels at [l], [r] and then at [-l], [-r] for the same
    duration brings the pose back to where it was, for every pair of wheel
    speeds and every duration.  (An identity of exact arithmetic; the
    floats of the code come back up to rounding.) *)
Theorem wheels_reverse_undoes (l r d : R) (s : Finch) :
  _pose (after (Wheels (- l) (- r) (Some d)) (after (Wheels l r (Some d)) s)) = _pose s.
Proof. exact (reversed_wheels_pose l r d s). Qed.

(** ** An arc is an arc of a circle *)

Lemma arc_position_on_circle (v omega t : R) (p : Pose) :
  ~ Rabs omega < 1e-9 -> Rabs v > 1e-12 ->
  let Rad := v / omega in
  let q := position (substep v omega t p) in
  (fst q - (x p - Rad * sin (th p)))² + (snd q - (y p + Rad * cos (th p)))² = Rad².
Proof.
  intros Ha Hv Rad q. unfold q, substep, turning_radius, position.
  destruct (Rlt_dec (Rabs omega) 1e-9) as [N | _]; [contradiction |].
  destruct (Rgt_dec (Rabs v) 1e-12) as [_ | N]; [| contradiction].
  cbn [x y th fst snd]. fold Rad.
  pose proof (sin2_cos2 (th p + omega * t)) as Hsc. unfold Rsqr in *. nra.
Qed.

(** With |omega| >= 1e-9 and |v| > 1e-12 every point [_advance] appends
    lies on the circle of radius |v / omega| around the centre of rotation,
    which is at distance v / omega to the left of the starting pose. *)
Theorem arc_points_on_circle (vl vr dt : R) (s : Finch) :
  0 < dt ->
  let v := (vl + vr) / 2 in
  let omega := (vr - vl) / 10 in
  1e-9 <= Rabs omega -> 1e-12 < Rabs v ->
  let Rad := v / omega in
  let cx := x (_pose s) - Rad * sin (th (_pose s)) in
  let cy := y (_pose s) + Rad * cos (th (_pose s)) in
  exists s' pts,
    _advance vl vr dt s = (Ok tt, s') /\
    _path s' = _path s ++ pts /\
    List.length pts = Z.to_nat (substeps dt) /\
    forall q, In q pts -> (fst q - cx)² + (snd q - cy)² = Rad².
Proof.
  intros Hdt v omega Ha Hv Rad cx cy.
  eexists. eexists. split; [apply advance_closed_form; exact Hdt |].
  cbn [_path]. split; [reflexivity |].
  split; [now rewrite length_map, length_seq |].
  intros q Hq. apply in_map_iff in Hq. destruct Hq as [k [<- _]].
  apply arc_position_on_circle; [fold omega; lra | exact Hv].
Qed.

Lemma arc_points_on_circle_witness :
  exists s' pts,
    _advance 3 5 1 __init__ = (Ok tt, s') /\
    _path s' = _path __init__ ++ pts /\
    List.length pts = Z.to_nat (substeps 1) /\
    forall q, In q pts ->
      (fst q - (x (_pose __init__) - (3 + 5) / 2 / ((5 - 3) / 10) * sin (th (_pose __init__))))² +
      (snd q - (y (_pose __init__) + (3 + 5) / 2 / ((5 - 3) / 10) * cos (th (_pose __init__))))² =
      ((3 + 5) / 2 / ((5 - 3) / 10))².
Proof.
  apply (arc_points_on_circle 3 5 1 __init__).
  - lra.
  - replace ((5 - 3) / 10) with 0.2 by lra. rewrite Rabs_pos_eq by lra. lra.
  - replace ((3 + 5) / 2) with 4 by lra. rewrite Rabs_pos_eq by lra. lra.
Defined.

(** ** Teardown and display never raise *)

(** [close()], the exit hook and [show()] return normally in every state
    of the object, an empty path included, and whatever the file system,
    the imaging library and the notebook do: each runs its work inside a
    [try] that swallows every failure. *)
Theorem teardown_never_raises (c : Cmd) (s : Finch) :
  is_trigger c \/ (exists env, c = Show env) ->
  exists s', exec c s = (Ok tt, s').
Proof.
  intros [Ht | [env ->]].
  - destruct (exec_trigger c s Ht) as [s' [E _]]. eauto.
  - exists s. simpl exec. apply show_returns.
Qed.

Lemma teardown_never_raises_witness :
  exists s',
    exec (Close (mkEnv false (Some false) false false))
         (mkFinch (mkPose 0 0 0) [(0, 0); (1, 0)] false []) = (Ok tt, s').
Proof.
  apply (teardown_never_raises (Close (mkEnv false (Some false) false false))
           (mkFinch (mkPose 0 0 0) [(0, 0); (1, 0)] false [])).
  left. exact I.
Defined.

(** ** Where a move ends *)

Lemma signed_magnitude (z : R) : (if Rge_dec z 0 then 1 else -1) * Rabs z = z.
Proof.
  destruct (Rge_dec z 0) as [Hp | Hn].
  - rewrite Rabs_pos_eq by lra. ring.
  - rewrite Rabs_left by lra. ring.
Qed.

Lemma setMove_pose (dir : string) (d sp : R) (s : Finch) :
  sp <> 0 ->
  exists s',
    setMove dir d sp s = (Ok tt, s') /\
    _pose s' =
    mkPose (x (_pose s) + direction_sign "F" dir * d * cos (th (_pose s)))
           (y (_pose s) + direction_sign "F" dir * d * sin (th (_pose s)))
           (th (_pose s)).
Proof.
  intros Hsp. rewrite setMove_advance by exact Hsp.
  pose proof (Rabs_pos_lt sp Hsp) as Hpos.
  set (signed := d * direction_sign "F" dir).
  destruct (Req_dec_T d 0) as [Hz | Hnz].
  - exists s. split.
    + apply advance_nonpositive. rewrite Hz, Rabs_R0. lra.
    + rewrite Hz. destruct (_pose s) as [px py pth]. cbn [x y th]. f_equal; ring.
  - assert (Hdt : 0 < Rabs d / Rabs sp).
    { apply Rdiv_lt_0_compat; [now apply Rabs_pos_lt | exact Hpos]. }
    set (u := Rabs sp * (if Rge_dec signed 0 then 1 else -1)).
    destruct (advance_straight u (Rabs d / Rabs sp) s Hdt) as [s' [E Hpose]].
    exists s'. split; [exact E |]. rewrite Hpose.
    assert (Hu : u * (Rabs d / Rabs sp) = direction_sign "F" dir * d).
    { unfold u. rewrite <- (Rabs_direction_sign "F" dir d). fold signed.
      transitivity ((if Rge_dec signed 0 then 1 else -1) * Rabs signed).
      - field. lra.
      - rewrite signed_magnitude. unfold signed. ring. }
    rewrite Hu. reflexivity.
Qed.

(** For a speed other than 0, [setMove] returns and takes the robot the
    signed distance along its heading, forward for "F" and backward for
    any other direction; the heading stays, and neither the magnitude nor
    the sign of the speed matters for where the robot ends. *)
Theorem setMove_displacement (dir : string) (d sp : R) (s : Finch) :
  sp <> 0 ->
  exists s',
    setMove dir d sp s = (Ok tt, s') /\
    x (_pose s') = x (_pose s) + direction_sign "F" dir * d * cos (th (_pose s)) /\
    y (_pose s') = y (_pose s) + direction_sign "F" dir * d * sin (th (_pose s)) /\
    th (_pose s') = th (_pose s).
Proof.
  intros Hsp. destruct (setMove_pose dir d sp s Hsp) as [s' [E H]].
  exists s'. rewrite H. cbn [x y th]. repeat split; assumption || reflexivity.
Qed.

Lemma setMove_displacement_witness :
  -5 <> 0 /\
  exists s',
    setMove "B" 20 (-5) __init__ = (Ok tt, s') /\
    x (_pose s') =
    x (_pose __init__) + direction_sign "F" "B" * 20 * cos (th (_pose __init__)) /\
    y (_pose s') =
    y (_pose __init__) + direction_sign "F" "B" * 20 * sin (th (_pose __init__)) /\
    th (_pose s') = th (_pose __init__).
Proof.
  assert (H : -5 <> 0) by lra.
  exact (conj H (setMove_displacement "B" 20 (-5) __init__ H)).
Defined.

(** ** A direction is a sign, and the sign of a speed is ignored *)

(** Backward by d is forward by -d, right by d is left by -d, and a
    negated speed gives the same call: in each pair the two calls have the
    same outcome and leave the same object, path included. *)
Theorem direction_and_speed_signs (dir : string) (d sp : R) (s : Finch) :
  setMove "B" d sp s = setMove "F" (- d) sp s /\
  setTurn "R" d sp s = setTurn "L" (- d) sp s /\
  setMove dir d (- sp) s = setMove dir d sp s /\
  setTurn dir d (- sp) s = setTurn dir d sp s.
Proof.
  repeat split.
  - unfold setMove. cbn [String.eqb Ascii.eqb Bool.eqb].
    replace (d * -1) with (- d * 1) by lra. reflexivity.
  - unfold setTurn. cbn [String.eqb Ascii.eqb Bool.eqb].
    replace (d * -1) with (- d * 1) by lra. reflexivity.
  - unfold setMove. rewrite Rabs_Ropp. reflexivity.
  - unfold setTurn. rewrite Rabs_Ropp. reflexivity.
Qed.

(** ** Where a turn ends *)

(** For degrees > 0 and an angular speed of at least 1e-9 rad/s,
    [setTurn] returns with the heading changed by radians(degrees),
    counter-clockwise for "L" and clockwise otherwise.  (An identity of
    exact arithmetic: the code adds up the increments omega * h of the
    substeps, which gives this angle up to rounding.) *)
Theorem turn_heading (dir : string) (deg dps : R) (s : Finch) :
  0 < deg -> 1e-9 <= radians dps ->
  exists s',
    setTurn dir deg dps s = (Ok tt, s') /\
    th (_pose s') = th (_pose s) + direction_sign "L" dir * radians deg.
Proof.
  intros Hdeg Hfast.
  assert (Hdps : 0 < dps).
  { unfold radians in Hfast. pose proof PI_RGT_0 as Hpi.
    destruct (Rlt_dec 0 dps) as [H | H]; [exact H |].
    assert (dps * (PI / 180) <= 0) by nra. lra. }
  destruct (setTurn_heading dir deg dps s Hdeg Hdps) as [s' [E H]].
  exists s'. split; [exact E |].
  destruct (Rlt_dec (radians dps) 1e-9); [lra | exact H].
Qed.

Lemma turn_heading_witness :
  0 < 90 /\ 1e-9 <= radians 30 /\
  exists s',
    setTurn "R" 90 30 __init__ = (Ok tt, s') /\
    th (_pose s') = th (_pose __init__) + direction_sign "L" "R" * radians 90.
Proof.
  assert (H90 : 0 < 90) by lra.
  assert (H30 : 1e-9 <= radians 30).
  { unfold radians. pose proof PI2_1. lra. }
  exact (conj H90 (conj H30 (turn_heading "R" 90 30 __init__ H90 H30))).
Defined.



(** ** The view rectangle holds the whole path *)

Lemma extent_span (lo hi : R) : hi - lo <= extent lo hi.
Proof. unfold extent. apply Rmax_r. Qed.

Lemma bounds_inside (s : Finch) :
  _path s <> [] ->
  exists view,
    _bounds s = (Ok view, s) /\
    (0 < snd (fst view) /\ 0 < snd view) /\
    forall p, In p (_path s) -> inside_view view p.
Proof.
  intros Hne.
  destruct (bounds_nonempty s Hne) as [minx [maxx [miny [maxy [Hx1 [Hx2 [Hy1 [Hy2 E]]]]]]]].
  exists (view_of minx maxx miny maxy). split; [exact E |].
  pose proof (extent_pos minx maxx) as Hex. pose proof (extent_pos miny maxy) as Hey.
  pose proof (extent_span minx maxx) as Hsx. pose proof (extent_span miny maxy) as Hsy.
  unfold view_of. cbn [fst snd]. split; [split; lra |].
  intros p Hp. unfold inside_view.
  assert (Hfx : In (fst p) (map fst (_path s))) by now apply in_map.
  assert (Hfy : In (snd p) (map snd (_path s))) by now apply in_map.
  pose proof (proj2 Hx1 _ Hfx). pose proof (proj2 Hx2 _ Hfx).
  pose proof (proj2 Hy1 _ Hfy). pose proof (proj2 Hy2 _ Hfy).
  repeat split; lra.
Qed.

(** On a non-empty path [_bounds] returns a rectangle that holds every
    point of the path strictly inside it, with room on all four sides. *)
Theorem bounds_contain_path (s : Finch) :
  _path s <> [] ->
  exists view_min_x view_min_y view_w view_h,
    _bounds s = (Ok (view_min_x, view_min_y, view_w, view_h), s) /\
    forall p, In p (_path s) ->
      view_min_x < fst p < view_min_x + view_w /\
      view_min_y < snd p < view_min_y + view_h.
Proof.
  intros Hne. destruct (bounds_inside s Hne) as [[[[vx vy] w] h] [E [_ Hin]]].
  exists vx, vy, w, h. split; [exact E | exact Hin].
Qed.

Lemma bounds_contain_path_witness :
  _path __init__ <> [] /\
  exists view_min_x view_min_y view_w view_h,
    _bounds __init__ = (Ok (view_min_x, view_min_y, view_w, view_h), __init__) /\
    forall p, In p (_path __init__) ->
      view_min_x < fst p < view_min_x + view_w /\
      view_min_y < snd p < view_min_y + view_h.
Proof.
  assert (Hne : _path __init__ <> []) by (simpl; discriminate).
  exact (conj Hne (bounds_contain_path __init__ Hne)).
Defined.

(** On an empty path [_bounds] raises a [ValueError] and leaves the object
    alone; on every other path it returns a rectangle and raises nothing. *)
Theorem bounds_raises_iff_empty (s : Finch) :
  (_path s = [] -> _bounds s = (Raise ValueError, s)) /\
  (_path s <> [] -> exists view, _bounds s = (Ok view, s)) /\
  (forall e s', _bounds s = (Raise e, s') -> e = ValueError /\ _path s = []).
Proof.
  assert (Hempty : _path s = [] -> _bounds s = (Raise ValueError, s)).
  { intros Hp. unfold _bounds. run_monad. rewrite Hp. reflexivity. }
  assert (Hfull : _path s <> [] -> exists view, _bounds s = (Ok view, s)).
  { intros Hne. destruct (bounds_inside s Hne) as [view [E _]]. eauto. }
  split; [exact Hempty | split; [exact Hfull |]].
  intros e s' E. destruct (_path s) as [| p t] eqn:Hp.
  - rewrite (Hempty eq_refl) in E. injection E as <- _. split; reflexivity.
  - destruct Hfull as [view E']; [discriminate |]. rewrite E' in E. discriminate.
Qed.

(** When all points of the path are one point p, as for a robot that has
    not moved or has only turned, the view is the square of side 1.2e-6
    whose corner is p - (1e-7, 1e-7).  The point is not in its middle: it
    lies 1e-7 from the low edges and 1.1e-6 from the high ones. *)
Theorem bounds_of_a_single_place (s : Finch) (p : point) :
  _path s <> [] -> (forall q, In q (_path s) -> q = p) ->
  exists view_min_x view_min_y view_w view_h,
    _bounds s = (Ok (view_min_x, view_min_y, view_w, view_h), s) /\
    view_min_x = fst p - 1e-7 /\ view_min_y = snd p - 1e-7 /\
    view_w = 1.2e-6 /\ view_h = 1.2e-6 /\
    view_min_x + view_w - fst p = 1.1e-6 /\
    view_min_y + view_h - snd p = 1.1e-6.
Proof.
  intros Hne Hall.
  destruct (bounds_nonempty s Hne) as [minx [maxx [miny [maxy [Hx1 [Hx2 [Hy1 [Hy2 E]]]]]]]].
  assert (Hco : forall z, In z (map fst (_path s)) -> z = fst p).
  { intros z Hz. apply in_map_iff in Hz. destruct Hz as [q [<- Hq]]. now rewrite (Hall q Hq). }
  assert (Hco' : forall z, In z (map snd (_path s)) -> z = snd p).
  { intros z Hz. apply in_map_iff in Hz. destruct Hz as [q [<- Hq]]. now rewrite (Hall q Hq). }
  rewrite (Hco _ (proj1 Hx1)), (Hco _ (proj1 Hx2)),
          (Hco' _ (proj1 Hy1)), (Hco' _ (proj1 Hy2)) in E.
  do 4 eexists. split; [exact E |].
  unfold extent. rewrite !Rmax_left by lra. repeat split; lra.
Qed.

Lemma bounds_of_a_single_place_witness :
  exists view_min_x view_min_y view_w view_h,
    _bounds __init__ = (Ok (view_min_x, view_min_y, view_w, view_h), __init__) /\
    view_min_x = fst (0.0, 0.0) - 1e-7 /\ view_min_y = snd (0.0, 0.0) - 1e-7 /\
    view_w = 1.2e-6 /\ view_h = 1.2e-6 /\
    view_min_x + view_w - fst (0.0, 0.0) = 1.1e-6 /\
    view_min_y + view_h - snd (0.0, 0.0) = 1.1e-6.
Proof.
  apply (bounds_of_a_single_place __init__ (0.0, 0.0)).
  - simpl. discriminate.
  - simpl. intros q [<- | []]. reflexivity.
Defined.

(** ** The drawing lies inside the picture *)

Lemma round_half_even_error (r : R) :
  IZR (round_half_even r) - 0.5 <= r <= IZR (round_half_even r) + 0.5.
Proof.
  unfold round_half_even. destruct (Zfloor_bound r) as [Hlo Hhi].
  destruct (Rlt_dec (r - IZR (Zfloor r)) 0.5) as [Hlt | Hge]; [lra |].
  destruct (Rgt_dec (r - IZR (Zfloor r)) 0.5) as [Hgt | Hle].
  - rewrite plus_IZR. lra.
  - destruct (Z.even (Zfloor r)); [lra | rewrite plus_IZR; lra].
Qed.

Lemma fmt3_lt_le (a b : R) : a < b -> (fmt3 a <= fmt3 b)%Z.
Proof.
  intros Hab. unfold fmt3.
  pose proof (round_half_even_error (a * 1000)) as [Ha _].
  pose proof (round_half_even_error (b * 1000)) as [_ Hb].
  assert (H : IZR (round_half_even (a * 1000)) < IZR (round_half_even (b * 1000) + 1)).
  { rewrite plus_IZR. lra. }
  apply lt_IZR in H. lia.
Qed.

Lemma fmt3_sum_bound (c a b : R) : c < a + b -> (fmt3 c <= fmt3 a + fmt3 b + 1)%Z.
Proof.
  intros Hc. unfold fmt3.
  pose proof (round_half_even_error (c * 1000)) as [Hc1 _].
  pose proof (round_half_even_error (a * 1000)) as [_ Ha].
  pose proof (round_half_even_error (b * 1000)) as [_ Hb].
  assert (H : IZR (round_half_even (c * 1000)) <
              IZR (round_half_even (a * 1000) + round_half_even (b * 1000) + 2)).
  { rewrite !plus_IZR. lra. }
  apply lt_IZR in H. lia.
Qed.

Lemma to_svg_string_doc (s : Finch) :
  _path s <> [] ->
  exists vx vy w h r,
    _bounds s = (Ok (vx, vy, w, h), s) /\
    _to_svg_string s =
    (Ok (mkSvg 400 (Z.min 400 (Z.max 2 (pyint (IZR 400 * r))))
               (fmt3 vx, fmt3 (- vy - h), fmt3 w, fmt3 h)
               (map (fun p => (fmt3 (fst p), fmt3 (- snd p))) (_path s))), s).
Proof.
  intros Hne.
  destruct (bounds_inside s Hne) as [[[[vx vy] w] h] [E _]].
  destruct (aspect_ok w h s) as [r Hr].
  exists vx, vy, w, h, r. split; [exact E |].
  unfold _to_svg_string, bind at 1. rewrite E.
  unfold bind at 1, get at 1. unfold bind. rewrite Hr. reflexivity.
Qed.

(** On a non-empty path [_to_svg_string] returns a document 400 wide and
    between 2 and 400 high whose polyline has one point per path point, x
    and -y each printed to three decimals.  As printed, every point lies
    within the printed viewBox up to one thousandth on the far side: the
    left and top edges are never passed, the right and bottom ones by at
    most 0.001, since corner and size are rounded separately. *)
Theorem svg_polyline_inside_viewBox (s : Finch) :
  _path s <> [] ->
  exists doc bx b_y bw bh,
    _to_svg_string s = (Ok doc, s) /\
    svg_width doc = 400%Z /\
    (2 <= svg_height doc <= 400)%Z /\
    svg_polyline doc = map (fun p => (fmt3 (fst p), fmt3 (- snd p))) (_path s) /\
    svg_viewBox doc = (bx, b_y, bw, bh) /\
    forall q, In q (svg_polyline doc) ->
      (bx <= fst q <= bx + bw + 1)%Z /\ (b_y <= snd q <= b_y + bh + 1)%Z.
Proof.
  intros Hne.
  destruct (to_svg_string_doc s Hne) as [vx [vy [w [h [r [Eb E]]]]]].
  destruct (bounds_inside s Hne) as [view [Eb' [_ Hin]]].
  rewrite Eb in Eb'. injection Eb' as <-.
  eexists. exists (fmt3 vx), (fmt3 (- vy - h)), (fmt3 w), (fmt3 h).
  split; [exact E |]. cbn [svg_width svg_height svg_polyline svg_viewBox].
  split; [reflexivity | split; [lia | split; [reflexivity | split; [reflexivity |]]]].
  intros q Hq. apply in_map_iff in Hq. destruct Hq as [p [<- Hp]].
  specialize (Hin p Hp). unfold inside_view in Hin. cbn [fst snd].
  destruct Hin as [[Hx1 Hx2] [Hy1 Hy2]].
  repeat split.
  - apply fmt3_lt_le. exact Hx1.
  - apply fmt3_sum_bound. exact Hx2.
  - apply fmt3_lt_le. lra.
  - apply fmt3_sum_bound. lra.
Qed.

Lemma svg_polyline_inside_viewBox_witness :
  _path __init__ <> [] /\
  exists doc bx b_y bw bh,
    _to_svg_string __init__ = (Ok doc, __init__) /\
    svg_width doc = 400%Z /\
    (2 <= svg_height doc <= 400)%Z /\
    svg_polyline doc = map (fun p => (fmt3 (fst p), fmt3 (- snd p))) (_path __init__) /\
    svg_viewBox doc = (bx, b_y, bw, bh) /\
    forall q, In q (svg_polyline doc) ->
      (bx <= fst q <= bx + bw + 1)%Z /\ (b_y <= snd q <= b_y + bh + 1)%Z.
Proof.
  assert (Hne : _path __init__ <> []) by (simpl; discriminate).
  exact (conj Hne (svg_polyline_inside_viewBox __init__ Hne)).
Defined.

Lemma pyint_range (r : R) (n : Z) : 0 < r < IZR n -> (0 <= pyint r < n)%Z.
Proof.
  intros [H0 Hn]. unfold pyint. destruct (Rle_dec 0 r) as [_ | N]; [| lra].
  destruct (Zfloor_bound r) as [Hlo _]. split.
  - apply Zfloor_lub. simpl. lra.
  - apply lt_IZR. lra.
Qed.

Lemma scaled_range (d w k : R) : 0 < d < w -> 0 < k -> 0 < d * (k / w) < k.
Proof.
  intros [Hd Hw] Hk.
  assert (Hs : 0 < k / w) by (apply Rdiv_lt_0_compat; lra).
  split; [apply Rmult_lt_0_compat; lra |].
  replace k with (w * (k / w)) at 2 by (field; lra).
  apply Rmult_lt_compat_r; lra.
Qed.

(** When the imaging library imports and its drawing and encoding go
    through ([pil env = Some true]), [_png_bytes] on a non-empty path
    returns an image 600 wide and at least 2 high with one pixel position
    per path point, each of them inside the image: 0 <= x < W and
    0 <= y < H. *)
Theorem png_points_inside_image (env : Env) (s : Finch) :
  _path s <> [] -> pil env = Some true ->
  exists bmp,
    _png_bytes env s = (Ok (Some bmp), s) /\
    bmp_W bmp = 600%Z /\ (2 <= bmp_H bmp)%Z /\
    List.length (bmp_points bmp) = List.length (_path s) /\
    forall q, In q (bmp_points bmp) ->
      (0 <= fst q < bmp_W bmp)%Z /\ (0 <= snd q < bmp_H bmp)%Z.
Proof.
  intros Hne Hpil.
  destruct (bounds_inside s Hne) as [[[[vx vy] w] h] [E [[Hw Hh] Hin]]].
  cbn [fst snd] in Hw, Hh.
  unfold _png_bytes. rewrite Hpil. unfold bind at 1. rewrite E.
  unfold bind at 1. destruct (aspect_ok w h s) as [r ->].
  destruct (Rgt_dec w 0) as [_ | N]; [| lra].
  destruct (Rgt_dec h 0) as [_ | N]; [| lra].
  unfold bind, lift, get, ret. rewrite !truediv_ok by lra.
  set (H := Z.max 2 (pyint (IZR 600 * r))).
  assert (HH : (2 <= H)%Z) by (unfold H; lia).
  assert (HHr : 0 < IZR H) by (apply IZR_lt; lia).
  eexists. split; [reflexivity |]. cbn [bmp_W bmp_H bmp_points].
  split; [reflexivity | split; [exact HH | split; [apply length_map |]]].
  intros q Hq. apply in_map_iff in Hq. destruct Hq as [p [<- Hp]].
  specialize (Hin p Hp). unfold inside_view in Hin. cbn [fst snd].
  split; apply pyint_range.
  - apply scaled_range; [lra | apply IZR_lt; lia].
  - apply scaled_range; [lra | exact HHr].
Qed.

Lemma png_points_inside_image_witness :
  exists bmp,
    _png_bytes env_all_fine __init__ = (Ok (Some bmp), __init__) /\
    bmp_W bmp = 600%Z /\ (2 <= bmp_H bmp)%Z /\
    List.length (bmp_points bmp) = List.length (_path __init__) /\
    forall q, In q (bmp_points bmp) ->
      (0 <= fst q < bmp_W bmp)%Z /\ (0 <= snd q < bmp_H bmp)%Z.
Proof.
  apply (png_points_inside_image env_all_fine __init__).
  - simpl. discriminate.
  - reflexivity.
Defined.

(** ** What a render writes, and when *)

Lemma png_bytes_outcome (env : Env) (s : Finch) :
  _path s <> [] ->
  match pil env with
  | None => _png_bytes env s = (Ok None, s)
  | Some true => exists bmp, _png_bytes env s = (Ok (Some bmp), s)
  | Some false => _png_bytes env s = (Raise ImageError, s)
  end.
Proof.
  intros Hne. destruct (pil env) as [[|] |] eqn:Hpil.
  - now apply png_bytes_ok.
  - destruct (bounds_inside s Hne) as [[[[vx vy] w] h] [E [[Hw Hh] _]]].
    cbn [fst snd] in Hw, Hh.
    unfold _png_bytes. rewrite Hpil. unfold bind at 1. rewrite E.
    unfold bind at 1. destruct (aspect_ok w h s) as [r ->].
    destruct (Rgt_dec w 0) as [_ | N]; [| lra].
    destruct (Rgt_dec h 0) as [_ | N]; [| lra].
    unfold bind, lift, get, raise. rewrite !truediv_ok by lra. reflexivity.
  - unfold _png_bytes. rewrite Hpil. reflexivity.
Qed.

Lemma write_svg_png_events (env : Env) (s : Finch) :
  _path s <> [] ->
  snd (_write_svg_png env s) = with_written s (render_events env).
Proof.
  intros Hne. unfold _write_svg_png, bind at 1.
  destruct (to_svg_string_ok s Hne) as [doc ->].
  unfold bind at 1, open_write at 1, render_events.
  destruct (svg_writable env); [| reflexivity].
  set (s2 := mkFinch (_pose s) (_path s) (_closed s) (written s ++ [mkAttempt SvgFile true])).
  assert (Hne2 : _path s2 <> []) by exact Hne.
  pose proof (png_bytes_outcome env s2 Hne2) as Hpng.
  unfold try_pass, bind.
  destruct (pil env) as [[|] |].
  - destruct Hpng as [bmp ->]. unfold open_write, with_written, s2.
    cbn [_pose _path _closed written]. rewrite <- app_assoc.
    destruct (png_writable env); reflexivity.
  - rewrite Hpng. reflexivity.
  - rewrite Hpng. reflexivity.
Qed.

Lemma maybe_render_open (env : Env) (s : Finch) :
  _closed s = false -> (2 <= List.length (_path s))%nat ->
  _maybe_render env s =
  (Ok tt, mkFinch (_pose s) (_path s) true (written s ++ render_events env)).
Proof.
  intros Hc Hlen. unfold _maybe_render, bind at 1, get at 1. rewrite Hc.
  unfold bind, set_closed, get. cbn [_pose _path _closed written].
  destruct (Nat.ltb_spec (List.length (_path s)) 2) as [Hshort | _]; [lia |].
  set (s1 := mkFinch (_pose s) (_path s) true (written s)).
  assert (Hne : _path s1 <> []).
  { unfold s1. cbn [_path]. intros E. rewrite E in Hlen. simpl in Hlen. lia. }
  pose proof (write_svg_png_events env s1 Hne) as Hw.
  unfold try_pass. destruct (_write_svg_png env s1) as [[[] | e] s2];
    simpl in Hw; subst s2; reflexivity.
Qed.

(** The first trigger on a robot with two path points or more, [close()]
    or the exit hook alike, returns, sets the flag and tries the files as
    the surroundings allow: the SVG always; the PNG only after the SVG was
    written and only if the imaging library delivered; a failure of either
    is swallowed. *)
Theorem first_trigger_renders (env : Env) (s : Finch) :
  _closed s = false -> (2 <= List.length (_path s))%nat ->
  let s' := mkFinch (_pose s) (_path s) true (written s ++ render_events env) in
  exec (Close env) s = (Ok tt, s') /\ exec (AtExit env) s = (Ok tt, s').
Proof.
  intros Hc Hlen s'. split; simpl exec; apply maybe_render_open; assumption.
Qed.

Lemma first_trigger_renders_witness :
  let s := after (SetMove "F" 20 10) __init__ in
  let env := mkEnv true None true true in
  exec (Close env) s = (Ok tt, mkFinch (_pose s) (_path s) true (written s ++ render_events env)) /\
  exec (AtExit env) s = (Ok tt, mkFinch (_pose s) (_path s) true (written s ++ render_events env)).
Proof.
  intros s env.
  assert (H : _closed s = false /\ (2 <= List.length (_path s))%nat).
  { unfold s, after. simpl exec. rewrite setMove_advance by lra.
    assert (Hdt : 0 < Rabs 20 / Rabs 10) by (rewrite !Rabs_pos_eq by lra; lra).
    rewrite advance_positive by exact Hdt. cbn [snd _closed _path __init__].
    rewrite length_app, length_map, samples_length.
    pose proof (substeps_pos _ Hdt). cbn [List.length]. split; [reflexivity | lia]. }
  exact (first_trigger_renders env s (proj1 H) (proj2 H)).
Defined.

Lemma one_render_shapes (evs : list write_attempt) :
  one_render evs ->
  evs = [] \/
  (exists ok, evs = [mkAttempt SvgFile ok]) \/
  (exists ok, evs = [mkAttempt SvgFile true; mkAttempt PngFile ok]).
Proof. intros H. destruct H; eauto. Qed.

Lemma after_one_render (c : Cmd) (s : Finch) :
  (_closed s = false -> written s = []) /\ one_render (written s) ->
  (_closed (after c s) = false -> written (after c s) = []) /\
  one_render (written (after c s)).
Proof.
  intros [Hopen Hone].
  destruct (after_cases c s) as [[_ [_ [_ [Hc Hw]]]] | [_ [_ [Hc [evs [Hw [Hevs [Hcl _]]]]]]]].
  - rewrite Hc, Hw. split; assumption.
  - rewrite Hc, Hw. split; [discriminate |].
    destruct (_closed s) eqn:E.
    + rewrite (Hcl eq_refl), app_nil_r. exact Hone.
    + rewrite (Hopen eq_refl). exact Hevs.
Qed.

(** Over the whole life of a robot its files are opened in one of three
    ways: not at all, the SVG alone, or the SVG successfully and then the
    PNG.  The PNG is never opened first, never without the SVG and never
    after an SVG that failed. *)
Theorem write_history_shapes (cs : list Cmd) :
  let w := written (run cs __init__) in
  w = [] \/
  (exists ok, w = [mkAttempt SvgFile ok]) \/
  (exists ok, w = [mkAttempt SvgFile true; mkAttempt PngFile ok]).
Proof.
  apply one_render_shapes.
  apply (run_invariant
           (fun s => (_closed s = false -> written s = []) /\ one_render (written s))
           after_one_render).
  split; [reflexivity | constructor].
Qed.

(** Once the flag is set no command clears it and no command opens a
    file: whatever was or was not rendered by then is final. *)
Theorem closed_is_final (s : Finch) (cs : list Cmd) :
  _closed s = true ->
  _closed (run cs s) = true /\ written (run cs s) = written s.
Proof. intros Hc. now apply closed_run. Qed.

Lemma closed_is_final_witness :
  let s := after (Close env_all_fine) __init__ in
  _closed (run [SetMove "F" 20 10; Close env_all_fine] s) = true /\
  written (run [SetMove "F" 20 10; Close env_all_fine] s) = written s.
Proof.
  intros s. apply (closed_is_final s). reflexivity.
Defined.

(** A trigger never touches the pose or the path, and a second trigger
    leaves the object exactly as the first left it. *)
Theorem close_is_idempotent (c1 c2 : Cmd) (s : Finch) :
  is_trigger c1 -> is_trigger c2 ->
  _pose (after c1 s) = _pose s /\
  _path (after c1 s) = _path s /\
  after c2 (after c1 s) = after c1 s.
Proof.
  intros H1 H2.
  destruct (after_trigger c1 s H1) as [Hpose [Hpath [Hc _]]].
  split; [exact Hpose | split; [exact Hpath |]].
  set (s1 := after c1 s) in *.
  assert (E : forall env, _maybe_render env s1 = (Ok tt, s1)).
  { intros env. unfold _maybe_render, bind, get. rewrite Hc. reflexivity. }
  unfold after at 1. destruct c2; simpl in H2; try contradiction; simpl exec.
  - unfold close. now rewrite E.
  - unfold atexit_hook. now rewrite E.
Qed.

Lemma close_is_idempotent_witness :
  _pose (after (Close env_all_fine) __init__) = _pose __init__ /\
  _path (after (Close env_all_fine) __init__) = _path __init__ /\
  after (AtExit env_all_fine) (after (Close env_all_fine) __init__) =
  after (Close env_all_fine) __init__.
Proof.
  apply (close_is_idempotent (Close env_all_fine) (AtExit env_all_fine) __init__); exact I.
Defined.

(** ** The notebook bundle *)


(** ** The sampling step *)

(** For a positive duration ceil(dt / 0.02) is at least 1 by itself (the
    [max(1, ...)] of the code changes nothing then), and the substeps have
    one length h = dt / N with 0 < h <= 0.02 and N * h = dt.  (Exact
    arithmetic; with the floats of the code up to rounding.) *)
Theorem substep_length_bound (dt : R) :
  0 < dt ->
  let N := substeps dt in
  let h := dt / IZR N in
  Z.max 1 N = N /\ 0 < h <= 0.02 /\ IZR N * h = dt.
Proof.
  intros Hdt N h. unfold h, N.
  pose proof (substeps_pos dt Hdt) as HN.
  pose proof (substeps_IZR_pos dt Hdt) as HR.
  destruct (substeps_bounds dt) as [Hlo Hhi].
  split; [now apply substeps_max |]. split; [split |].
  - now apply Rdiv_lt_0_compat.
  - apply Rmult_le_reg_r with (IZR (substeps dt)); [exact HR |].
    replace (dt / IZR (substeps dt) * IZR (substeps dt)) with dt by (field; lra).
    lra.
  - field. lra.
Qed.

Lemma substep_length_bound_witness :
  0 < 0.05 /\
  Z.max 1 (substeps 0.05) = substeps 0.05 /\
  0 < 0.05 / IZR (substeps 0.05) <= 0.02 /\
  IZR (substeps 0.05) * (0.05 / IZR (substeps 0.05)) = 0.05.
Proof.
  assert (H : 0 < 0.05) by lra.
  exact (conj H (substep_length_bound 0.05 H)).
Defined.

(** ** Only a trigger writes *)

(** A command other than [close()] and the exit hook opens no file and
    leaves the flag as it is. *)
Theorem only_triggers_write (c : Cmd) (s : Finch) :
  ~ is_trigger c ->
  written (after c s) = written s /\ _closed (after c s) = _closed s.
Proof.
  intros Hc. destruct (after_motor c s Hc) as [_ [_ [_ [Hcl Hw]]]]. auto.
Qed.

Lemma only_triggers_write_witness :
  written (after (SetTurn "L" 90 30) __init__) = written __init__ /\
  _closed (after (SetTurn "L" 90 30) __init__) = _closed __init__.
Proof.
  apply (only_triggers_write (SetTurn "L" 90 30) __init__). simpl. exact (fun H => H).
Defined.

(** ** A turn and its opposite *)

Lemma setTurn_pivot_speeds (dir : string) (deg dps : R) (s : Finch) :
  0 < deg -> 0 < dps ->
  let sp := 0.5 * radians dps * WHEELBASE_CM in
  let dt := radians deg / radians dps in
  0 < dt /\
  setTurn dir deg dps s =
  _advance (if String.eqb dir "L" then - sp else sp)
           (if String.eqb dir "L" then sp else - sp) dt s.
Proof.
  intros Hdeg Hdps sp dt.
  destruct (setTurn_wheels dir deg dps s Hdeg Hdps) as [Hdur Hw].
  cbv zeta in Hdur, Hw.
  pose proof (radians_pos _ Hdps) as Hrate.
  pose proof (radians_pos _ Hdeg) as Hangle.
  assert (Homega : Rabs (radians dps * direction_sign "L" dir) = radians dps).
  { unfold direction_sign. destruct (String.eqb dir "L").
    - rewrite Rabs_pos_eq by lra. lra.
    - rewrite Rabs_left by lra. lra. }
  rewrite Homega, (Rabs_pos_eq (radians deg)) in Hdur, Hw by lra.
  split; [exact Hdur | exact Hw].
Qed.

(** For degrees > 0 and an angular speed > 0, a left turn followed by the
    same turn to the right, or the other way round, brings the pose back
    to where it was.  (An identity of exact arithmetic; the floats of the
    code come back up to rounding.) *)
Theorem turn_round_trip (deg dps : R) (s : Finch) :
  0 < deg -> 0 < dps ->
  _pose (after (SetTurn "R" deg dps) (after (SetTurn "L" deg dps) s)) = _pose s /\
  _pose (after (SetTurn "L" deg dps) (after (SetTurn "R" deg dps) s)) = _pose s.
Proof.
  intros Hdeg Hdps.
  set (sp := 0.5 * radians dps * WHEELBASE_CM).
  set (dt := radians deg / radians dps).
  assert (HL : forall s0, after (SetTurn "L" deg dps) s0 = after (Wheels (- sp) sp (Some dt)) s0).
  { intros s0. unfold after. simpl exec.
    destruct (setTurn_pivot_speeds "L" deg dps s0 Hdeg Hdps) as [_ ->]. reflexivity. }
  assert (HR : forall s0, after (SetTurn "R" deg dps) s0 =
                          after (Wheels (- - sp) (- sp) (Some dt)) s0).
  { intros s0. unfold after. simpl exec.
    destruct (setTurn_pivot_speeds "R" deg dps s0 Hdeg Hdps) as [_ ->].
    rewrite Ropp_involutive. reflexivity. }
  split.
  - rewrite HR, HL. apply reversed_wheels_pose.
  - rewrite HL, HR.
    pose proof (reversed_wheels_pose (- - sp) (- sp) dt s) as H.
    rewrite !Ropp_involutive in H. rewrite Ropp_involutive. exact H.
Qed.

Lemma turn_round_trip_witness :
  0 < 90 /\ 0 < 30 /\
  _pose (after (SetTurn "R" 90 30) (after (SetTurn "L" 90 30) __init__)) = _pose __init__ /\
  _pose (after (SetTurn "L" 90 30) (after (SetTurn "R" 90 30) __init__)) = _pose __init__.
Proof.
  assert (H90 : 0 < 90) by lra. assert (H30 : 0 < 30) by lra.
  exact (conj H90 (conj H30 (turn_round_trip 90 30 __init__ H90 H30))).
Defined.
